(** * Poker league scoring: a shallow embedding of the scoring engine

    The entities of the league script (Player, Score, Season, Game) are
    embedded module by module, in the order the script declares them.
    JavaScript numbers that hold points are integers here ([Z]); array
    lengths and indices are [nat].  Sparse arrays are lists of optional
    elements, a hole being [None].  Objects that the script mutates in
    place (the Score records of a season, a Game before it is scored) are
    threaded explicitly: every operation returns the new value.

    The narrative log of a game ([story]) is written and never read by the
    scoring code; it is left out, as is the back link from a game to its
    season. *)

From stdpp Require Import base list strings numbers sorting.

Local Open Scope Z_scope.

(** ** Utils *)

(** A sparse JavaScript array of integers. *)
Abbreviation array := (list (option Z)).

(** The elements a callback of [filter] or [reduce] is called on: holes
    are skipped. *)
Definition present (a : array) : list Z := omap (λ s, s) a.

(** [Array.prototype.sum]: [this.reduce(function(a, b) { return a + b }, 0)]. *)
Definition sum (l : list Z) : Z := foldl Z.add 0 l.

(** [a[i] = v]: an index inside the array is overwritten, an index beyond
    its end extends the array, leaving holes in between. *)
Definition array_set (i : nat) (v : Z) (a : array) : array :=
  if decide (i < length a)%nat then <[i := Some v]> a
  else a ++ replicate (i - length a) None ++ [Some v].

(** [a[i]], [None] standing for [undefined]: a hole and an index beyond
    the end read the same. *)
Definition array_get (a : array) (i : nat) : option Z := a !! i ≫= (λ s, s).

(** [l.indexOf(x)]: position of the first element strictly equal to [x],
    or -1. *)
Definition indexOf `{EqDecision A} (x : A) (l : list A) : Z :=
  match list_find (λ y, y = x) l with
  | Some (i, _) => Z.of_nat i
  | None => -1
  end.

(** [Array.prototype.sort(cmp)].  The built-in is required to be stable;
    it is modelled by the stable insertion sort: an element taken from the
    front goes before the first element it does not compare greater
    than. *)
Fixpoint sort_insert {A} (cmp : A → A → Z) (x : A) (l : list A) : list A :=
  match l with
  | [] => [x]
  | y :: l' => if decide (cmp x y ≤ 0) then x :: l else y :: sort_insert cmp x l'
  end.

Definition Array_sort {A} (cmp : A → A → Z) (l : list A) : list A :=
  foldr (sort_insert cmp) [] l.

(** How the evaluation of an expression ends: with a value, or with a
    thrown error. *)
Inductive error := InvalidGameError.

Inductive completion (A : Type) :=
  | Normal (a : A)
  | Throw (e : error).
Arguments Normal {A} a.
Arguments Throw {A} e.

(** ** Player *)

Module Player.

Record t := mk { id : nat; name : string }.

(** One object is made per id (the directory index), and it is never
    mutated: [===] on players is equality of the records. *)
#[global] Instance eq_dec : EqDecision t.
Proof. solve_decision. Defined.

End Player.

(** ** Score *)

Module Score.

Record t := mk {
  player : Player.t;
  scores : array;
  bonusPoints : array;
  wins : Z
}.

Definition new (player : Player.t) : t :=
  {| player := player; scores := []; bonusPoints := []; wins := 0 |}.

(** Position in [scores] of the first Score of [player], and that
    Score: the search loop of [getOrCreate]. *)
Definition position (player : Player.t) (scores : list t) : option nat :=
  fst <$> list_find (λ s, player = Score.player s) scores.

Definition find (player : Player.t) (scores : list t) : option t :=
  snd <$> list_find (λ s, player = Score.player s) scores.

(** [Score.getOrCreate]: the Score of [player] is returned by its
    position in the collection, which is extended when the player has
    none. *)
Definition getOrCreate (player : Player.t) (scores : list t) : nat * list t :=
  match position player scores with
  | Some i => (i, scores)
  | None => (length scores, scores ++ [new player])
  end.

Definition reset (this : t) : t :=
  {| player := player this; scores := []; bonusPoints := []; wins := 0 |}.

(** [setScore(game, score)], given [game.index]; an index that is still
    [null] names a property that is no element of the array. *)
Definition setScore (index : option nat) (score : Z) (this : t) : t :=
  {| player := player this;
     scores := match index with
               | Some i => array_set i score (scores this)
               | None => scores this
               end;
     bonusPoints := bonusPoints this;
     wins := wins this |}.

Definition setBonusPoints (index : option nat) (points : Z) (this : t) : t :=
  {| player := player this;
     scores := scores this;
     bonusPoints := match index with
                    | Some i => array_set i points (bonusPoints this)
                    | None => bonusPoints this
                    end;
     wins := wins this |}.

Definition win (this : t) : t :=
  {| player := player this;
     scores := scores this;
     bonusPoints := bonusPoints this;
     wins := wins this + 1 |}.

(** Every stored element is a number, so the test
    [typeof s != 'undefined'] only drops the holes. *)
Definition getGameScores (this : t) : list Z := present (scores this).

Definition getGamesPlayed (this : t) : nat := length (getGameScores this).

(** [(scores.sum() / scores.length).toFixed(1)] is a floating-point
    division and its decimal rendering: both are the parameter
    [toFixed1], applied to the sum and the length. *)
Definition getAveragePointsPerGame (toFixed1 : Z → nat → string) (this : t)
    : Z + string :=
  let scores := getGameScores this in
  if decide (length scores = 0%nat) then inl 0
  else inr (toFixed1 (sum scores) (length scores)).

Definition getBonusPoints (this : t) : Z := sum (present (bonusPoints this)).

(** [Math.min.apply(Math, scores)] on a non-empty list. *)
Definition getLowestWeeklyPoints (this : t) : Z :=
  match getGameScores this with
  | [] => 0
  | s :: rest => foldl Z.min s rest
  end.

Definition getOverallScore (this : t) : Z :=
  sum (take 9 (Array_sort (λ a b, b - a) (getGameScores this))).

(** The cells of a row of the league table, after the player's name. *)
Definition league_table_row (toFixed1 : Z → nat → string) (this : t)
    : nat * Z * (Z + string) * Z * Z * Z :=
  (getGamesPlayed this, wins this, getAveragePointsPerGame toFixed1 this,
   getBonusPoints this, getLowestWeeklyPoints this, getOverallScore this).

End Score.

(** ** Game *)

(** A calendar date as the script reads it: full year, month from 0, day
    of the month. *)
Record Date := mkDate { getFullYear : Z; getMonth : Z; getDate : Z }.

Module Game.

Definition knockout : Type := Player.t * Player.t.

Record t := mk {
  index : option nat;
  date : Date;
  results : list Player.t;
  knockouts : list knockout;
  bountyPlayers : option (list Player.t);
  fishChipper : option Player.t
}.

(** [new Game(date, results, knockouts)]; [knockouts || []]. *)
Definition new (date : Date) (results : list Player.t)
    (knockouts : option (list knockout)) : t :=
  {| index := None;
     date := date;
     results := results;
     knockouts := default [] knockouts;
     bountyPlayers := None;
     fishChipper := None |}.

(** The constructor is a sequence of field assignments, with no [throw]:
    it always completes with the new object. *)
Definition construct (date : Date) (results : list Player.t)
    (knockouts : option (list knockout)) : completion t :=
  Normal (new date results knockouts).

Definition set_index (i : nat) (this : t) : t :=
  {| index := Some i;
     date := date this;
     results := results this;
     knockouts := knockouts this;
     bountyPlayers := bountyPlayers this;
     fishChipper := fishChipper this |}.

(** First loop of [setPreviousGameInfo], over what is left of the
    previous results: it runs while [bountyPlayers.length < 3]. *)
Fixpoint bounty_loop (results previous bountyPlayers : list Player.t)
    : list Player.t :=
  match previous with
  | [] => bountyPlayers
  | player :: previous' =>
      if decide (length bountyPlayers < 3)%nat then
        bounty_loop results previous'
          (if decide (indexOf player results ≠ -1)
           then bountyPlayers ++ [player] else bountyPlayers)
      else bountyPlayers
  end.

(** Second loop, [for (i = length - 1; i >= 0; i--)]; [n] is [i + 1].
    The field keeps its value when the loop never breaks. *)
Fixpoint fish_loop (results previous : list Player.t) (n : nat)
    (fishChipper : option Player.t) : option Player.t :=
  match n with
  | O => fishChipper
  | S i =>
      match previous !! i with
      | Some player =>
          if decide (indexOf player results ≠ -1) then Some player
          else fish_loop results previous i fishChipper
      | None => fish_loop results previous i fishChipper
      end
  end.

Definition setPreviousGameInfo (this previousGame : t) : t :=
  {| index := index this;
     date := date this;
     results := results this;
     knockouts := knockouts this;
     bountyPlayers :=
       Some (bounty_loop (results this) (results previousGame) []);
     fishChipper :=
       fish_loop (results this) (results previousGame)
         (length (results previousGame)) (fishChipper this) |}.

Definition DEFAULT_POINTS : list Z := [15; 13; 11; 9; 7; 5; 4; 3; 2; 1].
Definition FISH_CHIP_BONUS : Z := 1.
Definition BOUNTY_BONUS : Z := 1.

Definition getWinner (this : t) : option Player.t := results this !! 0%nat.

Definition getPaidPlayers (this : t) : list Player.t :=
  let playerCount := length (results this) in
  let paid := ((playerCount - playerCount mod 3) / 3)%nat in
  take paid (results this).

(** [while (extraPoints > 0) { points.push(extraPoints); extraPoints-- }] *)
Fixpoint push_extra (extraPoints : nat) (points : list Z) : list Z :=
  match extraPoints with
  | O => points
  | S extraPoints' =>
      push_extra extraPoints' (points ++ [Z.of_nat extraPoints])
  end.

(** The local [points] of [calculateScores], for a game of
    [playerCount] finishers. *)
Definition placementPoints (playerCount : nat) : list Z :=
  let points := DEFAULT_POINTS in
  if decide (length points < playerCount)%nat then
    let extraPoints := (playerCount - length points)%nat in
    push_extra extraPoints ((λ score, score + Z.of_nat extraPoints) <$> points)
  else points.

Definition calculateFishChipBonus (this : t) (player : Player.t) : Z :=
  if decide (Some player = fishChipper this) then
    if decide (indexOf player (getPaidPlayers this) ≠ -1)
    then 0 + FISH_CHIP_BONUS else 0
  else 0.

Definition calculateBountyBonus (this : t) (player : Player.t) : Z :=
  match bountyPlayers this with
  | Some bounties =>
      foldl (λ bountyBonus (ko : knockout),
               if decide (ko.1 = player ∧ indexOf ko.2 bounties ≠ -1)
               then bountyBonus + BOUNTY_BONUS else bountyBonus)
            0 (knockouts this)
  | None => 0
  end.

(** Body of the scoring loop for the finisher at position [i]: what is
    done to the finisher's Score, and the loop body itself.  [points[i]]
    is always inside the vector (see [placementPoints_length]). *)
Definition score_update (this : t) (points : list Z) (i : nat)
    (player : Player.t) (score : Score.t) : Score.t :=
  let placeScore := points !!! i in
  let bonusPoints :=
    calculateFishChipBonus this player + calculateBountyBonus this player in
  Score.setBonusPoints (index this) bonusPoints
    (Score.setScore (index this) (placeScore + bonusPoints)
       (if decide (i = 0%nat) then Score.win score else score)).

Definition score_player (this : t) (points : list Z) (i : nat)
    (player : Player.t) (scores : list Score.t) : list Score.t :=
  let '(k, scores) := Score.getOrCreate player scores in
  alter (score_update this points i player) k scores.

(** The scoring loop from position [i] on, [rest] being
    [results.slice(i)]. *)
Fixpoint score_loop (this : t) (points : list Z) (i : nat)
    (rest : list Player.t) (scores : list Score.t) : list Score.t :=
  match rest with
  | [] => scores
  | player :: rest' =>
      score_loop this points (S i) rest' (score_player this points i player scores)
  end.

Definition calculateScores (this : t) (scores : list Score.t) : list Score.t :=
  score_loop this (placementPoints (length (results this))) 0
    (results this) scores.

End Game.

(** ** Season *)

Module Season.

Record t := mk {
  name : string;
  games : list Game.t;
  scores : list Score.t
}.

Definition new (name : string) : t :=
  {| name := name; games := []; scores := [] |}.

Definition sortScores (scores : list Score.t) : list Score.t :=
  Array_sort (λ a b, Score.getOverallScore b - Score.getOverallScore a) scores.

(** The game as [addGame] has it when it is pushed and scored: told
    about the previous game, if there is one, then given its index. *)
Definition linked (this : t) (game : Game.t) : Game.t :=
  let game :=
    match list.last (games this) with
    | Some previousGame => Game.setPreviousGameInfo game previousGame
    | None => game
    end in
  Game.set_index (length (games this)) game.

(** [addGame(game, sortScores)]; a missing second argument is falsy and
    is passed as [false].  The scores are sorted unless the argument is
    truthy. *)
Definition addGame (this : t) (game : Game.t) (sortScores_arg : bool) : t :=
  let game := linked this game in
  let scores := Game.calculateScores game (scores this) in
  {| name := name this;
     games := games this ++ [game];
     scores := if negb sortScores_arg then sortScores scores else scores |}.

End Season.

(** ** The persisted records *)

(** [{date: 'Y-M-D', results: [id, ...], knockouts: [[id, id], ...]}]; the
    date string is kept as its three numbers. *)
Record GameObj := mkGameObj {
  obj_date : Z * Z * Z;
  obj_results : list nat;
  obj_knockouts : list (nat * nat)
}.

Record SeasonObj := mkSeasonObj {
  obj_name : string;
  obj_games : list GameObj
}.

Definition Game_toObject (this : Game.t) : GameObj :=
  {| obj_date := (getFullYear (Game.date this),
                  getMonth (Game.date this) + 1,
                  getDate (Game.date this));
     obj_results := Player.id <$> Game.results this;
     obj_knockouts :=
       (λ ko : Game.knockout, (Player.id ko.1, Player.id ko.2))
         <$> Game.knockouts this |}.

(** [Game.fromObject(players, obj)].  [players[id]] is [undefined] for an
    id the directory does not have; no Game is given then. *)
Definition Game_fromObject (players : list Player.t) (obj : GameObj)
    : option Game.t :=
  let '(y, m, d) := obj_date obj in
  results ← mapM (λ id, players !! id) (obj_results obj);
  knockouts ← mapM (λ ko : nat * nat,
                      perp ← players !! ko.1;
                      victim ← players !! ko.2;
                      Some (perp, victim)) (obj_knockouts obj);
  Some (Game.new (mkDate y (m - 1) d) results (Some knockouts)).

Definition Season_toObject (this : Season.t) : SeasonObj :=
  {| obj_name := Season.name this;
     obj_games := Game_toObject <$> Season.games this |}.

(** [Season.fromObject(players, obj)]: every stored game is added with
    [false] as second argument. *)
Definition Season_fromObject (players : list Player.t) (obj : SeasonObj)
    : option Season.t :=
  foldl (λ season gameObj,
           season ← season;
           game ← Game_fromObject players gameObj;
           Some (Season.addGame season game false))
        (Some (Season.new (obj_name obj))) (obj_games obj).

(** ** Seasons of the application *)

(** The seasons the application makes: a new season, to which games fresh
    from the constructor are added one by one. *)
Inductive Season_built : Season.t → Prop :=
  | built_new (name : string) : Season_built (Season.new name)
  | built_addGame (s : Season.t) (d : Date) (r : list Player.t)
      (k : option (list Game.knockout)) (sortScores : bool) :
      Season_built s →
      Season_built (Season.addGame s (Game.new d r k) sortScores).

(** The players a game refers to: its finishers and both sides of its
    knockouts. *)
Definition Game_players (g : Game.t) : list Player.t :=
  Game.results g ++ Game.knockouts g ≫= (λ ko, [ko.1; ko.2]).

(** ** Auxiliary views of the scoring loop *)

(** [getOrCreate] followed by a change of the Score it returns, in one
    pass over the collection. *)
Fixpoint update_score (player : Player.t) (f : Score.t → Score.t)
    (scores : list Score.t) : list Score.t :=
  match scores with
  | [] => [f (Score.new player)]
  | s :: scores' =>
      if decide (player = Score.player s) then f s :: scores'
      else s :: update_score player f scores'
  end.

(** The scoring loop as seen from the Score of one player [q]. *)
Fixpoint player_loop (this : Game.t) (points : list Z) (q : Player.t)
    (i : nat) (rest : list Player.t) (score : option Score.t)
    : option Score.t :=
  match rest with
  | [] => score
  | player :: rest' =>
      player_loop this points q (S i) rest'
        (if decide (q = player)
         then Some (Game.score_update this points i player
                      (default (Score.new player) score))
         else score)
  end.

(** Position of the last occurrence of [q] in [rest], which starts at
    position [i] of the results. *)
Fixpoint last_place (q : Player.t) (i : nat) (rest : list Player.t)
    : option nat :=
  match rest with
  | [] => None
  | player :: rest' =>
      match last_place q (S i) rest' with
      | Some j => Some j
      | None => if decide (q = player) then Some i else None
      end
  end.

(** The Score of [q] once the loop is over, when position [j] is the
    last one at which [q] finished and [won] wins were credited. *)
Definition scored (this : Game.t) (points : list Z) (q : Player.t) (j : nat)
    (won : Z) (score : Score.t) : Score.t :=
  let bonusPoints :=
    Game.calculateFishChipBonus this q + Game.calculateBountyBonus this q in
  Score.setBonusPoints (Game.index this) bonusPoints
    (Score.setScore (Game.index this) (points !!! j + bonusPoints)
       {| Score.player := Score.player score;
          Score.scores := Score.scores score;
          Score.bonusPoints := Score.bonusPoints score;
          Score.wins := Score.wins score + won |}).

(** ** The Player directory *)

(** [{id: ..., name: ...}], the stored form of a Player. *)
Record PlayerObj := mkPlayerObj { pobj_id : nat; pobj_name : string }.

Definition Player_toObject (this : Player.t) : PlayerObj :=
  {| pobj_id := Player.id this; pobj_name := Player.name this |}.

Definition Player_fromObject (obj : PlayerObj) : Player.t :=
  Player.mk (pobj_id obj) (pobj_name obj).

(** What [addPlayer] does to the [players] array, given the value of the
    name field of the form: nothing when it is empty, otherwise
    [players.push(new Player(players.length, name))]. *)
Definition addPlayer (name : string) (players : list Player.t)
    : list Player.t :=
  if decide (name = "") then players
  else players ++ [Player.mk (length players) name].

(** A directory filled by adding players one by one. *)
Definition directory_of (names : list string) : list Player.t :=
  foldl (λ players name, addPlayer name players) [] names.

(** [Game.prototype.getGameNumber]: [this.index + 1], where a [null]
    index counts as 0. *)
Definition Game_getGameNumber (this : Game.t) : Z :=
  match Game.index this with
  | Some i => Z.of_nat i + 1
  | None => 0 + 1
  end.

(** ** What a game gives a player *)

(** The total and the bonus that the scoring of [g] stores for [q]: none
    when [q] is not among the finishers; the placement points are those
    of the last position at which [q] appears. *)
Definition game_bonus (q : Player.t) (g : Game.t) : option Z :=
  if decide (q ∈ Game.results g)
  then Some (Game.calculateFishChipBonus g q + Game.calculateBountyBonus g q)
  else None.

Definition game_total (q : Player.t) (g : Game.t) : option Z :=
  j ← last_place q 0 (Game.results g);
  Some (Game.placementPoints (length (Game.results g)) !!! j
        + (Game.calculateFishChipBonus g q + Game.calculateBountyBonus g q)).

(** ** Concrete players, games and seasons *)

Module Examples.

Definition A := Player.mk 0 "A".
Definition B := Player.mk 1 "B".
Definition C := Player.mk 2 "C".
Definition D := Player.mk 3 "D".
Definition E := Player.mk 4 "E".
Definition F := Player.mk 5 "F".
Definition directory : list Player.t := [A; B; C; D; E; F].

Definition G1 : Game.t := Game.new (mkDate 2012 2 7) [A; B; C; D; E; F] None.
Definition G2 : Game.t :=
  Game.new (mkDate 2012 2 14) [C; A; B; D; E; F] (Some [(C, A); (C, B); (A, D)]).
Definition G3 : Game.t := Game.new (mkDate 2012 2 21) [F; E; D] (Some [(F, C)]).

Definition season1 : Season.t := Season.addGame (Season.new "Spring") G1 false.
Definition season2 : Season.t := Season.addGame season1 G2 true.
Definition season3 : Season.t := Season.addGame season2 G3 false.

(** Twelve recorded games and one missed, and five recorded games. *)
Definition twelve : Score.t :=
  Score.mk A [Some 15; Some 1; Some 13; Some 2; None; Some 11; Some 9;
              Some 7; Some 2; Some 5; Some 4; Some 3; Some 3] [] 1.
Definition five : Score.t :=
  Score.mk B [Some 4; None; Some 15; Some 2; Some 2; Some 9] [] 1.

End Examples.

(** * Properties *)

(** Case analysis on a membership in an explicit list. *)
Ltac elem_of_cases H :=
  repeat (apply elem_of_cons in H as [->|H]); [..|by apply elem_of_nil in H].

(** ** Utils *)

Lemma indexOf_elem_of `{EqDecision A} (x : A) (l : list A) :
  indexOf x l ≠ -1 ↔ x ∈ l.
Proof.
  unfold indexOf. destruct (list_find _ l) as [[i y]|] eqn:Hfind.
  - apply list_find_Some in Hfind as (Hi & -> & _).
    split; [intros _; by eapply list_elem_of_lookup_2 | lia].
  - split; [done|]. intros Hx.
    apply list_find_None in Hfind.
    by eapply (proj1 (list.Forall_forall _ _)) in Hfind.
Qed.

Lemma sum_from (a : Z) (l : list Z) : foldl Z.add a l = a + sum l.
Proof.
  unfold sum. revert a. induction l as [|x l IH]; intros a; simpl; [lia|].
  rewrite (IH (a + x)), (IH (0 + x)). lia.
Qed.

Lemma sum_cons (x : Z) (l : list Z) : sum (x :: l) = x + sum l.
Proof. unfold sum at 1. simpl. rewrite sum_from. lia. Qed.

Lemma sum_foldr (l : list Z) : sum l = foldr Z.add 0 l.
Proof. induction l as [|x l IH]; [done|]. rewrite sum_cons, IH. done. Qed.

Lemma sum_app (l k : list Z) : sum (l ++ k) = sum l + sum k.
Proof.
  induction l as [|x l IH]; simpl; [unfold sum at 2; simpl; lia|].
  rewrite !sum_cons, IH. lia.
Qed.

Lemma sum_Permutation (l k : list Z) : l ≡ₚ k → sum l = sum k.
Proof.
  induction 1 as [|x l k _ IH|x y l|l k m _ IH1 _ IH2];
    rewrite ?sum_cons; lia.
Qed.

(** ** Placement points *)

Lemma push_extra_app (e : nat) (points : list Z) :
  Game.push_extra e points
  = points ++ ((λ j : nat, Z.of_nat e - Z.of_nat j) <$> seq 0 e).
Proof.
  revert points. induction e as [|e IH]; intros points.
  - simpl. by rewrite app_nil_r.
  - cbn [Game.push_extra]. rewrite IH, <- app_assoc. f_equal.
    rewrite <- cons_seq, <- fmap_S_seq, fmap_cons, <- list_fmap_compose.
    simpl app. f_equal; [lia..|].
    apply list_fmap_ext. intros _ j _. simpl. lia.
Qed.

Lemma placementPoints_length (n : nat) :
  (n ≤ length (Game.placementPoints n))%nat.
Proof.
  unfold Game.placementPoints. case_decide as Hn.
  - rewrite push_extra_app, length_app, !length_fmap, length_seq. lia.
  - lia.
Qed.

(** C1.  For a game of N finishers the placement points that
    calculateScores reads (the first N entries of its points vector) are
    the first N entries of the base table when N <= 10; when N > 10 the
    vector is the base table with extra = N - 10 added to each value,
    followed by extra, extra - 1, ..., 1: it has N entries, the first is
    15 + (N - 10) and the last is 1. *)
Theorem placement_points_table (N : nat) :
  ((N ≤ 10)%nat →
     take N (Game.placementPoints N) = take N [15; 13; 11; 9; 7; 5; 4; 3; 2; 1])
  ∧ ((10 < N)%nat →
       let extra := Z.of_nat N - 10 in
       Game.placementPoints N
       = ((λ base, base + extra) <$> [15; 13; 11; 9; 7; 5; 4; 3; 2; 1])
         ++ ((λ j : nat, extra - Z.of_nat j) <$> seq 0 (N - 10))
       ∧ length (Game.placementPoints N) = N
       ∧ Game.placementPoints N !! 0%nat = Some (15 + extra)
       ∧ Game.placementPoints N !! (N - 1)%nat = Some 1).
Proof.
  split.
  - intros HN. unfold Game.placementPoints. case_decide as Hlt; [|done].
    simpl in Hlt. lia.
  - intros HN extra.
    assert (Game.placementPoints N
            = ((λ base, base + extra) <$> [15; 13; 11; 9; 7; 5; 4; 3; 2; 1])
              ++ ((λ j : nat, extra - Z.of_nat j) <$> seq 0 (N - 10))) as Heq.
    { unfold Game.placementPoints. case_decide as Hlt; [|simpl in Hlt; lia].
      rewrite push_extra_app. unfold Game.DEFAULT_POINTS. simpl length.
      replace (Z.of_nat (N - 10)) with extra by (unfold extra; lia). done. }
    split; [exact Heq|]. rewrite Heq. split; [|split].
    + rewrite length_app, !length_fmap, length_seq. simpl. lia.
    + done.
    + rewrite lookup_app_r; rewrite !length_fmap; simpl length; [|lia].
      rewrite list_lookup_fmap, lookup_seq_lt by lia. simpl.
      f_equal. unfold extra. lia.
Qed.

Lemma placement_points_table_witness :
  take 6 (Game.placementPoints 6) = [15; 13; 11; 9; 7; 5]
  ∧ Game.placementPoints 13 = [18; 16; 14; 12; 10; 8; 7; 6; 5; 4; 3; 2; 1].
Proof.
  split.
  - apply (proj1 (placement_points_table 6)). lia.
  - apply (proj2 (placement_points_table 13)). lia.
Defined.

(** ** Bonus points of a game *)

Lemma paid_count (n : nat) : ((n - n mod 3) / 3)%nat = (n / 3)%nat.
Proof.
  pose proof (Nat.div_mod n 3 ltac:(lia)) as Hn.
  replace (n - n mod 3)%nat with (n / 3 * 3)%nat by lia.
  by rewrite Nat.div_mul.
Qed.

Lemma getPaidPlayers_take (g : Game.t) :
  Game.getPaidPlayers g = take (length (Game.results g) / 3) (Game.results g).
Proof. unfold Game.getPaidPlayers. cbv zeta. by rewrite paid_count. Qed.

Lemma calculateFishChipBonus_cases (g : Game.t) (p : Player.t) :
  Game.calculateFishChipBonus g p
  = if decide (Game.fishChipper g = Some p
               ∧ p ∈ take (length (Game.results g) / 3) (Game.results g))
    then 1 else 0.
Proof.
  unfold Game.calculateFishChipBonus, Game.FISH_CHIP_BONUS.
  rewrite getPaidPlayers_take.
  destruct (decide (Some p = Game.fishChipper g)) as [Hfish|Hfish].
  - destruct (decide (indexOf p _ ≠ -1)) as [Hpaid|Hpaid].
    + rewrite decide_True; [done|]. split; [done|by apply indexOf_elem_of].
    + rewrite decide_False; [done|]. intros [_ Hin].
      apply Hpaid. by apply indexOf_elem_of.
  - rewrite decide_False; [done|]. by intros [? _].
Qed.

(** C3.  The fish-chip bonus of a player p is 1 exactly when p is the
    game's fishChipper and p is among the first floor(N / 3) finishers,
    and 0 otherwise; it is never more than 1, and at most one player of a
    game is awarded it. *)
Theorem fish_chip_bonus (g : Game.t) (p : Player.t) :
  let paid := take (length (Game.results g) / 3) (Game.results g) in
  (Game.calculateFishChipBonus g p = 1
     ↔ Game.fishChipper g = Some p ∧ p ∈ paid)
  ∧ (Game.calculateFishChipBonus g p = 0
     ↔ ¬ (Game.fishChipper g = Some p ∧ p ∈ paid))
  ∧ 0 ≤ Game.calculateFishChipBonus g p ≤ 1
  ∧ (∀ q, Game.calculateFishChipBonus g p = 1 →
          Game.calculateFishChipBonus g q = 1 → p = q).
Proof.
  intros paid. rewrite calculateFishChipBonus_cases. fold paid.
  split; [|split; [|split]].
  - destruct (decide _) as [Hp|Hp]; [done|]. split; [done|]. by intros ?.
  - destruct (decide _) as [Hp|Hp]; [|done]. split; [done|]. by intros ?.
  - destruct (decide _); lia.
  - intros q. rewrite calculateFishChipBonus_cases.
    destruct (decide _) as [[Hp _]|]; [|done].
    destruct (decide _) as [[Hq _]|]; [|done].
    intros _ _. congruence.
Qed.

(** C4.  The bounty bonus of a player p is the number of knockout records
    of the game whose perpetrator is p and whose victim is one of the
    game's bountyPlayers: one point each, with no cap. *)
Theorem bounty_bonus (g : Game.t) (p : Player.t) :
  Game.calculateBountyBonus g p
  = Z.of_nat (length (filter
      (λ ko : Game.knockout, ko.1 = p ∧ ko.2 ∈ default [] (Game.bountyPlayers g))
      (Game.knockouts g))).
Proof.
  unfold Game.calculateBountyBonus, Game.BOUNTY_BONUS.
  destruct (Game.bountyPlayers g) as [bounties|]; simpl.
  - enough (∀ kos a,
      foldl (λ bountyBonus (ko : Game.knockout),
               if decide (ko.1 = p ∧ indexOf ko.2 bounties ≠ -1)
               then bountyBonus + 1 else bountyBonus) a kos
      = a + Z.of_nat (length (filter
          (λ ko : Game.knockout, ko.1 = p ∧ ko.2 ∈ bounties) kos))) as Hloop.
    { by rewrite Hloop. }
    induction kos as [|ko kos IH]; intros a; simpl; [lia|].
    rewrite IH, filter_cons.
    destruct (decide (ko.1 = p ∧ indexOf ko.2 bounties ≠ -1)) as [[Hp Hv]|Hko].
    + apply indexOf_elem_of in Hv. rewrite decide_True by done. simpl. lia.
    + rewrite decide_False; [lia|]. intros [Hp Hv%indexOf_elem_of]. by apply Hko.
  - induction (Game.knockouts g) as [|ko kos IH]; [done|].
    rewrite filter_cons, decide_False; [done|].
    intros [_ Hin]. by apply elem_of_nil in Hin.
Qed.

(** ** The information taken from the previous game *)

Lemma bounty_loop_take (results previous bountyPlayers : list Player.t) :
  (length bountyPlayers ≤ 3)%nat →
  Game.bounty_loop results previous bountyPlayers
  = take 3 (bountyPlayers ++ filter (.∈ results) previous).
Proof.
  revert bountyPlayers.
  induction previous as [|player previous IH]; intros acc Hacc; simpl.
  - rewrite app_nil_r, take_ge; [done|lia].
  - case_decide as Hlen.
    + rewrite filter_cons. case_decide as Hin.
      * rewrite decide_True by (by apply indexOf_elem_of).
        rewrite IH, <- app_assoc; [done|]. rewrite length_app. simpl. lia.
      * rewrite decide_False by (by intros ?%indexOf_elem_of). by apply IH.
    + rewrite take_app_le, take_ge; [done|lia..].
Qed.

Lemma fish_loop_head (results previous : list Player.t) (n : nat)
    (fishChipper : option Player.t) :
  (n ≤ length previous)%nat →
  Game.fish_loop results previous n fishChipper
  = match head (filter (.∈ results) (reverse (take n previous))) with
    | Some player => Some player
    | None => fishChipper
    end.
Proof.
  induction n as [|i IH]; intros Hn; [done|]. simpl.
  destruct (lookup_lt_is_Some_2 previous i ltac:(lia)) as [player Hi].
  rewrite Hi, (take_S_r _ _ _ Hi), reverse_snoc, filter_cons.
  case_decide as Hin.
  - by rewrite decide_True by (by apply indexOf_elem_of).
  - rewrite decide_False by (by intros ?%indexOf_elem_of). apply IH. lia.
Qed.

(** C5.  When a new game of results r is added to a season, the game that
    is appended carries, if the season had a last game, the first 3
    players of that game's results (winner first) who are also in r as
    bountyPlayers, and the first player of that game's results, read from
    last place up, who is also in r as fishChipper (none when there is no
    such player).  For the first game of a season both stay none and every
    bonus is 0. *)
Theorem previous_game_info (s : Season.t) (d : Date) (r : list Player.t)
    (k : option (list Game.knockout)) (sortScores : bool) :
  ∃ g, Season.games (Season.addGame s (Game.new d r k) sortScores)
       = Season.games s ++ [g]
    ∧ Game.results g = r
    ∧ match list.last (Season.games s) with
      | Some previous =>
          Game.bountyPlayers g
          = Some (take 3 (filter (.∈ r) (Game.results previous)))
          ∧ Game.fishChipper g
            = head (filter (.∈ r) (reverse (Game.results previous)))
      | None =>
          Game.bountyPlayers g = None
          ∧ Game.fishChipper g = None
          ∧ ∀ p, Game.calculateFishChipBonus g p = 0
                 ∧ Game.calculateBountyBonus g p = 0
      end.
Proof.
  unfold Season.addGame, Season.linked. cbv zeta. eexists. split; [reflexivity|].
  destruct (list.last (Season.games s)) as [previous|]; simpl.
  - split; [done|]. split.
    + by rewrite bounty_loop_take by (simpl; lia).
    + rewrite fish_loop_head, firstn_all by done.
      by destruct (head _).
  - by split_and!.
Qed.

(** ** Construction of a game *)

(** C8, as the code has it.  The constructor checks nothing: for every
    results list, empty or with a repeated player included, it completes
    with a Game that holds the list as given; it never throws. *)
Theorem game_construct_accepts (d : Date) (r : list Player.t)
    (k : option (list Game.knockout)) :
  ∃ g, Game.construct d r k = Normal g
    ∧ Game.results g = r
    ∧ Game.knockouts g = default [] k
    ∧ Game.index g = None
    ∧ Game.bountyPlayers g = None
    ∧ Game.fishChipper g = None.
Proof. by eexists. Qed.

(** C8 fails as stated: a Game with no finisher, and a Game in which a
    player finishes twice, are constructed, not rejected. *)
Lemma game_construct_no_rejection :
  let alice := Player.mk 0 "Alice" in
  Game.construct (mkDate 2012 0 1) [] None ≠ Throw InvalidGameError
  ∧ Game.construct (mkDate 2012 0 1) [alice; alice] None ≠ Throw InvalidGameError.
Proof. split; discriminate. Qed.

(** ** Sorting *)

Lemma sort_insert_Permutation {A} (cmp : A → A → Z) (x : A) (l : list A) :
  sort_insert cmp x l ≡ₚ x :: l.
Proof.
  induction l as [|y l IH]; simpl; [done|].
  destruct (decide _); [done|]. by rewrite IH, Permutation_swap.
Qed.

Lemma Array_sort_Permutation {A} (cmp : A → A → Z) (l : list A) :
  Array_sort cmp l ≡ₚ l.
Proof.
  induction l as [|x l IH]; simpl; [done|].
  by rewrite sort_insert_Permutation, IH.
Qed.

Lemma Array_sort_length {A} (cmp : A → A → Z) (l : list A) :
  length (Array_sort cmp l) = length l.
Proof. by rewrite Array_sort_Permutation. Qed.

Section sort_by_key.
(** Sorting in descending order of a key, as both comparators of the
    script do: [cmp a b = key b - key a]. *)
Context {A : Type} (key : A → Z).

Let cmp : A → A → Z := λ a b, key b - key a.
Let desc : relation A := λ a b, key b ≤ key a.

Lemma sort_insert_sorted (x : A) (l : list A) :
  StronglySorted desc l → StronglySorted desc (sort_insert cmp x l).
Proof.
  induction 1 as [|y l Hl IH Hy]; simpl.
  - repeat constructor.
  - destruct (decide _) as [Hxy|Hxy].
    + constructor; [by constructor|].
      constructor; [unfold desc, cmp in *; lia|].
      eapply Forall_impl; [exact Hy|]. unfold desc, cmp in *. intros; lia.
    + constructor; [done|].
      rewrite sort_insert_Permutation. constructor; [|done].
      unfold desc, cmp in *. lia.
Qed.

Lemma Array_sort_sorted (l : list A) : StronglySorted desc (Array_sort cmp l).
Proof.
  induction l as [|x l IH]; simpl; [constructor|by apply sort_insert_sorted].
Qed.

Lemma sort_insert_stable (v : Z) (x : A) (l : list A) :
  filter (λ a, key a = v) (sort_insert cmp x l)
  = filter (λ a, key a = v) (x :: l).
Proof.
  induction l as [|y l IH]; simpl; [done|].
  destruct (decide (cmp x y ≤ 0)) as [Hxy|Hxy]; [done|].
  rewrite (filter_cons _ y), IH, !filter_cons.
  unfold cmp in Hxy.
  destruct (decide (key x = v)), (decide (key y = v)); try done. lia.
Qed.

Lemma Array_sort_stable (v : Z) (l : list A) :
  filter (λ a, key a = v) (Array_sort cmp l) = filter (λ a, key a = v) l.
Proof.
  induction l as [|x l IH]; simpl; [done|].
  by rewrite sort_insert_stable, !filter_cons, IH.
Qed.
End sort_by_key.

#[local] Instance Z_ge_flip_antisymm : AntiSymm (=) (λ a b : Z, b ≤ a).
Proof. intros a b ??. lia. Qed.

(** ** Overall score *)

Lemma overall_score_split (recorded top rest : list Z) :
  recorded ≡ₚ top ++ rest →
  length top = (9 `min` length recorded)%nat →
  (∀ x y, x ∈ top → y ∈ rest → y ≤ x) →
  sum (take 9 (Array_sort (λ a b, b - a) recorded)) = sum top.
Proof.
  intros Hperm Hlen Hle.
  set (sorted := Array_sort (λ a b : Z, b - a)).
  assert (sorted recorded = sorted top ++ sorted rest) as ->.
  { apply (StronglySorted_unique (λ a b : Z, b ≤ a)).
    - apply (Array_sort_sorted (λ z : Z, z)).
    - apply StronglySorted_app_2.
      + intros x y. unfold sorted. rewrite !Array_sort_Permutation. apply Hle.
      + apply (Array_sort_sorted (λ z : Z, z)).
      + apply (Array_sort_sorted (λ z : Z, z)).
    - unfold sorted. by rewrite !Array_sort_Permutation. }
  apply Permutation_length in Hperm. rewrite length_app in Hperm.
  apply sum_Permutation.
  destruct (decide (length top = 9%nat)) as [Htop|Htop].
  - rewrite take_app_length' by (unfold sorted; by rewrite Array_sort_length).
    apply Array_sort_Permutation.
  - assert (rest = []) as -> by (apply length_zero_iff_nil; lia).
    simpl. rewrite app_nil_r, take_ge.
    + apply Array_sort_Permutation.
    + unfold sorted. rewrite Array_sort_length. lia.
Qed.

(** C2.  The overall score is the sum of the 9 largest recorded game
    totals: the recorded totals split into 9 of them (all of them when
    there are fewer) that are at least as large as every other one, and
    the overall score is the sum of those, whichever such split is taken.
    With at most 9 recorded games it is the sum of all of them, and 0 with
    none. *)
Theorem overall_score_best_nine (s : Score.t) :
  let recorded := present (Score.scores s) in
  (∃ top rest,
      recorded ≡ₚ top ++ rest
      ∧ length top = (9 `min` length recorded)%nat
      ∧ (∀ x y, x ∈ top → y ∈ rest → y ≤ x)
      ∧ Score.getOverallScore s = foldr Z.add 0 top)
  ∧ (∀ top rest,
      recorded ≡ₚ top ++ rest →
      length top = (9 `min` length recorded)%nat →
      (∀ x y, x ∈ top → y ∈ rest → y ≤ x) →
      Score.getOverallScore s = foldr Z.add 0 top)
  ∧ ((length recorded ≤ 9)%nat →
      Score.getOverallScore s = foldr Z.add 0 recorded)
  ∧ (recorded = [] → Score.getOverallScore s = 0).
Proof.
  intros recorded.
  assert (∀ top rest,
      recorded ≡ₚ top ++ rest →
      length top = (9 `min` length recorded)%nat →
      (∀ x y, x ∈ top → y ∈ rest → y ≤ x) →
      Score.getOverallScore s = foldr Z.add 0 top) as Hsplit.
  { intros top rest Hperm Hlen Hle. rewrite <- sum_foldr.
    by apply (overall_score_split recorded top rest). }
  split; [|split; [done|split]].
  - set (sorted := Array_sort (λ a b : Z, b - a) recorded).
    assert (recorded ≡ₚ take 9 sorted ++ drop 9 sorted) as Hperm.
    { rewrite take_drop. unfold sorted. by rewrite Array_sort_Permutation. }
    assert (length (take 9 sorted) = (9 `min` length recorded)%nat) as Hlen.
    { rewrite length_take. unfold sorted. by rewrite Array_sort_length. }
    assert (∀ x y, x ∈ take 9 sorted → y ∈ drop 9 sorted → y ≤ x) as Hle.
    { assert (StronglySorted (λ a b : Z, b ≤ a) sorted) as Hsorted
        by apply (Array_sort_sorted (λ z : Z, z)).
      rewrite <- (take_drop 9 sorted) in Hsorted.
      apply StronglySorted_app in Hsorted as (Hle & _ & _). exact Hle. }
    exists (take 9 sorted), (drop 9 sorted). split_and!; try done.
    by apply (Hsplit _ (drop 9 sorted)).
  - intros Hlen. apply (Hsplit recorded []).
    + by rewrite app_nil_r.
    + lia.
    + intros x y _ Hy. by apply elem_of_nil in Hy.
  - unfold Score.getOverallScore, Score.getGameScores. fold recorded.
    by intros ->.
Qed.

(** ** Sparse arrays *)

Lemma array_set_set (i : nat) (v w : Z) (a : array) :
  array_set i v (array_set i w a) = array_set i v a.
Proof.
  unfold array_set. destruct (decide (i < length a)%nat) as [Hi|Hi].
  - rewrite length_insert, decide_True by done. apply list_insert_insert_eq.
  - rewrite decide_True
      by (rewrite !length_app, length_replicate; simpl; lia).
    rewrite insert_app_r_alt by lia.
    rewrite insert_app_r_alt by (rewrite length_replicate; lia).
    rewrite length_replicate.
    by replace (i - length a - (i - length a))%nat with 0%nat by lia.
Qed.

Lemma array_get_set_eq (i : nat) (v : Z) (a : array) :
  array_get (array_set i v a) i = Some v.
Proof.
  unfold array_get, array_set. destruct (decide (i < length a)%nat) as [Hi|Hi].
  - by rewrite list_lookup_insert_eq.
  - rewrite lookup_app_r by lia.
    rewrite lookup_app_r by (rewrite length_replicate; lia).
    rewrite length_replicate.
    by replace (i - length a - (i - length a))%nat with 0%nat by lia.
Qed.

Lemma array_get_set_ne (i k : nat) (v : Z) (a : array) :
  k ≠ i → array_get (array_set i v a) k = array_get a k.
Proof.
  intros Hk. unfold array_get, array_set.
  destruct (decide (i < length a)%nat) as [Hi|Hi].
  - by rewrite list_lookup_insert_ne.
  - destruct (decide (k < length a)%nat) as [Hka|Hka].
    + by rewrite lookup_app_l.
    + rewrite (lookup_ge_None_2 a k) by lia.
      rewrite lookup_app_r by lia.
      destruct (decide (k < i)%nat).
      * rewrite lookup_app_l by (rewrite length_replicate; lia).
        by rewrite lookup_replicate_2 by lia.
      * rewrite lookup_ge_None_2; [done|].
        rewrite length_app, length_replicate. simpl. lia.
Qed.

(** ** The collection of Scores *)

Lemma position_cons (p : Player.t) (s : Score.t) (scores : list Score.t) :
  Score.position p (s :: scores)
  = if decide (p = Score.player s) then Some 0%nat
    else S <$> Score.position p scores.
Proof.
  unfold Score.position. simpl. destruct (decide _); [done|].
  by destruct (list_find _ scores) as [[??]|].
Qed.

Lemma find_cons (p : Player.t) (s : Score.t) (scores : list Score.t) :
  Score.find p (s :: scores)
  = if decide (p = Score.player s) then Some s else Score.find p scores.
Proof.
  unfold Score.find. simpl. destruct (decide _); [done|].
  by destruct (list_find _ scores) as [[??]|].
Qed.

Lemma find_Some_elem_of (q : Player.t) (s : Score.t) (scores : list Score.t) :
  Score.find q scores = Some s → s ∈ scores ∧ Score.player s = q.
Proof.
  induction scores as [|s' scores IH]; [done|]. rewrite find_cons.
  destruct (decide _) as [->|Hne].
  - intros [= ->]. split; [left|done].
  - intros [Hin Hq]%IH. split; [by right|done].
Qed.

Lemma find_None_elem_of (q : Player.t) (s : Score.t) (scores : list Score.t) :
  Score.find q scores = None → s ∈ scores → Score.player s ≠ q.
Proof.
  induction scores as [|s' scores IH]; [by intros _ ?%elem_of_nil|].
  rewrite find_cons. destruct (decide _) as [->|Hne]; [done|].
  intros Hnone [->|Hin]%elem_of_cons; [done|by apply IH].
Qed.

Lemma find_elem_of_NoDup (s : Score.t) (scores : list Score.t) :
  NoDup (Score.player <$> scores) → s ∈ scores →
  Score.find (Score.player s) scores = Some s.
Proof.
  induction scores as [|s' scores IH]; [by intros _ ?%elem_of_nil|].
  rewrite fmap_cons, NoDup_cons, find_cons.
  intros [Hnotin Hnodup] [->|Hin]%elem_of_cons.
  - by rewrite decide_True.
  - rewrite decide_False; [by apply IH|].
    intros Heq. apply Hnotin. rewrite <- Heq. by apply list_elem_of_fmap_2.
Qed.

Lemma find_Permutation (q : Player.t) (l k : list Score.t) :
  NoDup (Score.player <$> l) → l ≡ₚ k → Score.find q l = Score.find q k.
Proof.
  intros Hl Hperm.
  assert (NoDup (Score.player <$> k)) as Hk by (by rewrite <- Hperm).
  destruct (Score.find q l) as [s|] eqn:Hfl.
  - apply find_Some_elem_of in Hfl as [Hin <-].
    symmetry. apply find_elem_of_NoDup; [done|by rewrite <- Hperm].
  - destruct (Score.find q k) as [s|] eqn:Hfk; [|done].
    apply find_Some_elem_of in Hfk as [Hin Hq].
    rewrite <- Hperm in Hin. by apply (find_None_elem_of q s) in Hfl.
Qed.

Lemma find_ext_Permutation (l k : list Score.t) :
  NoDup (Score.player <$> l) → NoDup (Score.player <$> k) →
  (∀ q, Score.find q l = Score.find q k) → l ≡ₚ k.
Proof.
  intros Hl Hk Hfind.
  apply NoDup_Permutation; [by eapply NoDup_fmap_1..|].
  intros s. split; intros Hin.
  - apply (find_elem_of_NoDup s) in Hin; [|done].
    rewrite Hfind in Hin. by apply find_Some_elem_of in Hin as [? _].
  - apply (find_elem_of_NoDup s) in Hin; [|done].
    rewrite <- Hfind in Hin. by apply find_Some_elem_of in Hin as [? _].
Qed.

Lemma score_player_update (g : Game.t) (points : list Z) (i : nat)
    (p : Player.t) (scores : list Score.t) :
  Game.score_player g points i p scores
  = update_score p (Game.score_update g points i p) scores.
Proof.
  unfold Game.score_player, Score.getOrCreate.
  generalize (Game.score_update g points i p). intros f.
  induction scores as [|s scores IH]; [done|].
  rewrite position_cons. simpl. destruct (decide _); [done|].
  destruct (Score.position p scores) as [k|]; simpl in *; f_equal; exact IH.
Qed.

Section update_score.
Context (p : Player.t) (f : Score.t → Score.t).
Hypothesis f_player : ∀ s, Score.player (f s) = Score.player s.

Lemma find_update_score (q : Player.t) (scores : list Score.t) :
  Score.find q (update_score p f scores)
  = if decide (q = p)
    then Some (f (default (Score.new p) (Score.find p scores)))
    else Score.find q scores.
Proof.
  induction scores as [|s scores IH]; simpl.
  - rewrite find_cons, f_player. simpl. by destruct (decide _).
  - rewrite (find_cons p), (find_cons q).
    destruct (decide (p = Score.player s)) as [->|Hp].
    + rewrite find_cons, f_player. by destruct (decide _).
    + rewrite find_cons, IH.
      destruct (decide (q = Score.player s)) as [->|Hq]; [|done].
      by rewrite decide_False.
Qed.

Lemma update_score_players (scores : list Score.t) :
  Score.player <$> update_score p f scores
  = if decide (p ∈ Score.player <$> scores) then Score.player <$> scores
    else (Score.player <$> scores) ++ [p].
Proof.
  induction scores as [|s scores IH].
  - simpl. by rewrite f_player.
  - cbn [update_score]. rewrite (fmap_cons _ s).
    destruct (decide (p = Score.player s)) as [->|Hp].
    + rewrite fmap_cons, f_player, decide_True; [done|]. left.
    + rewrite fmap_cons, IH.
      destruct (decide (p ∈ Score.player <$> scores)) as [Hin|Hin].
      * rewrite decide_True; [done|]. by right.
      * rewrite decide_False; [done|]. by intros [?|?]%elem_of_cons.
Qed.

Lemma update_score_NoDup (scores : list Score.t) :
  NoDup (Score.player <$> scores) →
  NoDup (Score.player <$> update_score p f scores).
Proof.
  intros Hnodup. rewrite update_score_players.
  destruct (decide _) as [Hin|Hin]; [done|].
  apply NoDup_app. split_and!; [done| |apply NoDup_singleton].
  intros x Hx ->%list_elem_of_singleton. done.
Qed.
End update_score.

Lemma score_update_player (g : Game.t) (points : list Z) (i : nat)
    (p : Player.t) (s : Score.t) :
  Score.player (Game.score_update g points i p s) = Score.player s.
Proof. unfold Game.score_update. simpl. by destruct (decide _). Qed.

Lemma find_score_loop (g : Game.t) (points : list Z) (q : Player.t) (i : nat)
    (rest : list Player.t) (scores : list Score.t) :
  Score.find q (Game.score_loop g points i rest scores)
  = player_loop g points q i rest (Score.find q scores).
Proof.
  revert i scores. induction rest as [|p rest IH]; intros i scores; [done|].
  simpl. rewrite IH, score_player_update.
  rewrite find_update_score by apply score_update_player.
  by destruct (decide (q = p)) as [->|].
Qed.

Lemma score_loop_NoDup (g : Game.t) (points : list Z) (i : nat)
    (rest : list Player.t) (scores : list Score.t) :
  NoDup (Score.player <$> scores) →
  NoDup (Score.player <$> Game.score_loop g points i rest scores).
Proof.
  revert i scores. induction rest as [|p rest IH]; intros i scores Hnodup; [done|].
  simpl. apply IH. rewrite score_player_update.
  apply update_score_NoDup; [apply score_update_player|done].
Qed.

(** ** The scoring loop, player by player *)

Lemma score_update_scored (g : Game.t) (points : list Z) (q : Player.t)
    (i : nat) (s : Score.t) :
  Game.score_update g points i q s
  = scored g points q i (if decide (i = 0%nat) then 1 else 0) s.
Proof.
  unfold Game.score_update, scored, Score.setBonusPoints, Score.setScore,
    Score.win.
  destruct (decide (i = 0%nat)); simpl; f_equal; lia.
Qed.

Lemma scored_scored (g : Game.t) (points : list Z) (q : Player.t)
    (i j : nat) (won won' : Z) (s : Score.t) :
  scored g points q j won' (scored g points q i won s)
  = scored g points q j (won + won') s.
Proof.
  unfold scored, Score.setBonusPoints, Score.setScore. simpl.
  destruct (Game.index g); f_equal; rewrite ?array_set_set; try done; lia.
Qed.

Lemma player_loop_last (g : Game.t) (points : list Z) (q : Player.t) (i : nat)
    (rest : list Player.t) (score : option Score.t) :
  player_loop g points q i rest score
  = match last_place q i rest with
    | None => score
    | Some j =>
        Some (scored g points q j
                (if decide (i = 0%nat ∧ head rest = Some q) then 1 else 0)
                (default (Score.new q) score))
    end.
Proof.
  revert i score. induction rest as [|p rest IH]; intros i score; [done|].
  cbn [player_loop last_place]. rewrite IH.
  rewrite (decide_False (P := S i = 0%nat ∧ _)) by (intros [? _]; lia).
  destruct (decide (q = p)) as [<-|Hqp].
  - assert ((if decide (i = 0%nat ∧ head (q :: rest) = Some q) then 1 else 0)
            = (if decide (i = 0%nat) then 1 else 0) :> Z) as ->.
    { destruct (decide (i = 0%nat)).
      - by rewrite decide_True.
      - rewrite decide_False; [done|]. by intros [? _]. }
    rewrite score_update_scored. simpl default.
    destruct (last_place q (S i) rest) as [j|]; [|done].
    by rewrite scored_scored, Z.add_0_r.
  - rewrite (decide_False (P := i = 0%nat ∧ _)) by (by intros [_ [= ->]]).
    by destruct (last_place q (S i) rest).
Qed.

Lemma last_place_elem_of (q : Player.t) (i : nat) (rest : list Player.t) :
  is_Some (last_place q i rest) ↔ q ∈ rest.
Proof.
  revert i. induction rest as [|p rest IH]; intros i; simpl.
  - split; [by intros [? ?]|by intros ?%elem_of_nil].
  - rewrite elem_of_cons, <- (IH (S i)).
    destruct (last_place q (S i) rest) as [j|].
    + split; [right|]; eauto.
    + destruct (decide (q = p)) as [->|Hne].
      * split; [by left|eauto].
      * split; [by intros [? ?]|]. intros [?|[? ?]]; done.
Qed.

(** What [calculateScores] does to the Score of a player [q]: nothing when
    [q] did not finish; otherwise the total and the bonus are stored at
    the index of the game, and a win is credited to the winner. *)
Lemma find_calculateScores (g : Game.t) (q : Player.t) (scores : list Score.t) :
  Score.find q (Game.calculateScores g scores)
  = match last_place q 0 (Game.results g) with
    | None => Score.find q scores
    | Some j =>
        Some (scored g (Game.placementPoints (length (Game.results g))) q j
                (if decide (Game.getWinner g = Some q) then 1 else 0)
                (default (Score.new q) (Score.find q scores)))
    end.
Proof.
  unfold Game.calculateScores, Game.getWinner.
  rewrite find_score_loop, player_loop_last, <- head_lookup.
  destruct (last_place _ _ _); [|done]. do 2 f_equal.
  destruct (decide (head (Game.results g) = Some q)).
  - by rewrite decide_True.
  - rewrite decide_False; [done|]. by intros [_ ?].
Qed.

Lemma calculateScores_NoDup (g : Game.t) (scores : list Score.t) :
  NoDup (Score.player <$> scores) →
  NoDup (Score.player <$> Game.calculateScores g scores).
Proof. apply score_loop_NoDup. Qed.

Lemma calculateScores_ext (g : Game.t) (l k : list Score.t) :
  (∀ q, Score.find q l = Score.find q k) →
  ∀ q, Score.find q (Game.calculateScores g l)
       = Score.find q (Game.calculateScores g k).
Proof. intros Hfind q. by rewrite !find_calculateScores, Hfind. Qed.

(** ** Scoring a game twice *)

Lemma win_scored (g : Game.t) (points : list Z) (q : Player.t) (j : nat)
    (won : Z) (s : Score.t) :
  Score.win (scored g points q j won s) = scored g points q j (won + 1) s.
Proof.
  unfold scored, Score.win, Score.setBonusPoints, Score.setScore. simpl.
  f_equal. lia.
Qed.

Lemma find_None_players (q : Player.t) (scores : list Score.t) :
  Score.find q scores = None ↔ q ∉ Score.player <$> scores.
Proof.
  induction scores as [|s scores IH].
  - split; [intros _; apply not_elem_of_nil|done].
  - rewrite find_cons, fmap_cons, not_elem_of_cons.
    destruct (decide _) as [->|Hne].
    + split; [done|]. by intros [? _].
    + rewrite IH. tauto.
Qed.

Lemma score_loop_players (g : Game.t) (points : list Z) (i : nat)
    (rest : list Player.t) (scores : list Score.t) :
  (∀ p, p ∈ rest → p ∈ Score.player <$> scores) →
  Score.player <$> Game.score_loop g points i rest scores
  = Score.player <$> scores.
Proof.
  revert i scores. induction rest as [|p rest IH]; intros i scores Hin; [done|].
  assert (Score.player <$> Game.score_player g points i p scores
          = Score.player <$> scores) as Hstep.
  { rewrite score_player_update.
    rewrite update_score_players by apply score_update_player.
    rewrite decide_True; [done|]. apply Hin. left. }
  simpl. rewrite IH, Hstep; [done|].
  intros p' Hp'. rewrite Hstep. apply Hin. by right.
Qed.

Lemma calculateScores_finishers (g : Game.t) (scores : list Score.t) (p : Player.t) :
  p ∈ Game.results g → p ∈ Score.player <$> Game.calculateScores g scores.
Proof.
  intros Hp. destruct (decide (p ∈ Score.player <$> Game.calculateScores g scores))
    as [|Hnotin%find_None_players]; [done|].
  rewrite find_calculateScores in Hnotin.
  apply (last_place_elem_of p 0) in Hp as [j Hj]. by rewrite Hj in Hnotin.
Qed.

Lemma find_fmap_players (F : Player.t → Score.t → Score.t) (l k : list Score.t) :
  (∀ q s, Score.player (F q s) = Score.player s) →
  NoDup (Score.player <$> l) →
  Score.player <$> k = Score.player <$> l →
  (∀ q, Score.find q k = F q <$> Score.find q l) →
  k = (λ s, F (Score.player s) s) <$> l.
Proof.
  intros HF. revert k.
  induction l as [|a l IH]; intros [|b k] Hnodup Hplayers Hfind; try done.
  rewrite !fmap_cons in Hplayers. injection Hplayers as Hab Hplayers.
  rewrite fmap_cons in Hnodup. apply NoDup_cons in Hnodup as [Ha Hnodup].
  rewrite fmap_cons. f_equal.
  - specialize (Hfind (Score.player a)).
    rewrite !find_cons, <- Hab, !decide_True in Hfind by done.
    simpl in Hfind. congruence.
  - apply IH; [done..|]. intros q. specialize (Hfind q).
    rewrite !find_cons, Hab in Hfind.
    destruct (decide (q = Score.player a)) as [->|]; [|done].
    rewrite (proj2 (find_None_players _ l)) by done.
    by rewrite (proj2 (find_None_players _ k)) by (by rewrite Hplayers).
Qed.

(** C7, as the code has it.  A second run of calculateScores for the same
    game on the Score collection left by the first run creates no Score
    and stores the same total and the same bonus at the index of the
    game, but credits the winner with one more win: the Score of every
    player is the one the first run left, except that [win] has been
    applied once more to the Score of the first-place finisher. *)
Theorem calculateScores_twice (g : Game.t) (scores : list Score.t) :
  let once := Game.calculateScores g scores in
  let twice := Game.calculateScores g once in
  let again (q : Player.t) (s : Score.t) :=
    if decide (Game.getWinner g = Some q) then Score.win s else s in
  (∀ q, Score.find q twice = again q <$> Score.find q once)
  ∧ Score.player <$> twice = Score.player <$> once
  ∧ (NoDup (Score.player <$> scores) →
     twice = (λ s, again (Score.player s) s) <$> once).
Proof.
  intros once twice again.
  assert (∀ q, Score.find q twice = again q <$> Score.find q once) as Hfind.
  { intros q. unfold twice, once, again. rewrite !find_calculateScores.
    destruct (last_place q 0 (Game.results g)) as [j|] eqn:Hlast; simpl.
    - rewrite scored_scored.
      destruct (decide (Game.getWinner g = Some q)); [by rewrite win_scored|].
      by rewrite Z.add_0_r.
    - destruct (decide (Game.getWinner g = Some q)) as [Hwin|];
        [|by destruct (Score.find q scores)].
      apply (list_elem_of_lookup_2 _ 0%nat) in Hwin.
      apply (last_place_elem_of q 0) in Hwin as [j Hj]. congruence. }
  assert (Score.player <$> twice = Score.player <$> once) as Hplayers.
  { apply score_loop_players. intros p. apply calculateScores_finishers. }
  split; [done|split; [done|]]. intros Hnodup.
  apply find_fmap_players; try done.
  - intros q s. unfold again. by destruct (decide _).
  - by apply calculateScores_NoDup.
Qed.

Lemma calculateScores_twice_witness :
  let alice := Player.mk 0 "Alice" in
  let g := Game.set_index 0 (Game.new (mkDate 2012 0 1) [alice] None) in
  Game.calculateScores g (Game.calculateScores g [])
  = [Score.mk alice [Some 15] [Some 0] 2].
Proof.
  intros alice g.
  rewrite (proj2 (proj2 (calculateScores_twice g []))) by constructor.
  vm_compute. reflexivity.
Defined.

(** C7 fails as stated: after a second run the winner has two wins for
    one game, so the Score collection is not what the first run left. *)
Lemma calculateScores_not_idempotent :
  let alice := Player.mk 0 "Alice" in
  let g := Game.set_index 0 (Game.new (mkDate 2012 0 1) [alice] None) in
  Game.calculateScores g [] = [Score.mk alice [Some 15] [Some 0] 1]
  ∧ Game.calculateScores g (Game.calculateScores g [])
    = [Score.mk alice [Some 15] [Some 0] 2]
  ∧ Game.calculateScores g (Game.calculateScores g [])
    ≠ Game.calculateScores g [].
Proof. vm_compute. split; [done|]. split; [done|]. discriminate. Qed.

(** ** Adding a game to a season *)

Lemma linked_index (s : Season.t) (g : Game.t) :
  Game.index (Season.linked s g) = Some (length (Season.games s)).
Proof. done. Qed.

Lemma linked_results (s : Season.t) (g : Game.t) :
  Game.results (Season.linked s g) = Game.results g.
Proof. unfold Season.linked. by destruct (list.last _). Qed.

Lemma linked_knockouts (s : Season.t) (g : Game.t) :
  Game.knockouts (Season.linked s g) = Game.knockouts g.
Proof. unfold Season.linked. by destruct (list.last _). Qed.

Lemma addGame_games (s : Season.t) (g : Game.t) (sortScores : bool) :
  Season.games (Season.addGame s g sortScores)
  = Season.games s ++ [Season.linked s g].
Proof. done. Qed.

Lemma addGame_scores_Permutation (s : Season.t) (g : Game.t) (sortScores : bool) :
  Season.scores (Season.addGame s g sortScores)
  ≡ₚ Game.calculateScores (Season.linked s g) (Season.scores s).
Proof.
  unfold Season.addGame. simpl. destruct sortScores; simpl; [done|].
  apply Array_sort_Permutation.
Qed.

Lemma addGame_NoDup (s : Season.t) (g : Game.t) (sortScores : bool) :
  NoDup (Score.player <$> Season.scores s) →
  NoDup (Score.player <$> Season.scores (Season.addGame s g sortScores)).
Proof.
  intros Hnodup. rewrite addGame_scores_Permutation.
  by apply calculateScores_NoDup.
Qed.

Lemma addGame_find (s : Season.t) (g : Game.t) (sortScores : bool) (q : Player.t) :
  NoDup (Score.player <$> Season.scores s) →
  Score.find q (Season.scores (Season.addGame s g sortScores))
  = Score.find q (Game.calculateScores (Season.linked s g) (Season.scores s)).
Proof.
  intros Hnodup. apply find_Permutation.
  - by apply addGame_NoDup.
  - apply addGame_scores_Permutation.
Qed.

Lemma Season_built_NoDup (s : Season.t) :
  Season_built s → NoDup (Score.player <$> Season.scores s).
Proof.
  induction 1 as [name|s d r k sortScores _ IH]; [constructor|].
  by apply addGame_NoDup.
Qed.

(** C9.  When a game is added without suppressing the sort, the Score
    collection is in descending order of overall score, and it holds the
    Scores that the scoring of the game left, those of equal overall score
    in the order in which the scoring left them. *)
Theorem addGame_sorts_scores (s : Season.t) (g : Game.t) :
  let sorted := Season.scores (Season.addGame s g false) in
  let unsorted := Season.scores (Season.addGame s g true) in
  unsorted = Game.calculateScores (Season.linked s g) (Season.scores s)
  ∧ StronglySorted
      (λ a b, Score.getOverallScore b ≤ Score.getOverallScore a) sorted
  ∧ sorted ≡ₚ unsorted
  ∧ ∀ v, filter (λ a, Score.getOverallScore a = v) sorted
         = filter (λ a, Score.getOverallScore a = v) unsorted.
Proof.
  intros sorted unsorted. split; [done|]. split; [|split].
  - apply (Array_sort_sorted Score.getOverallScore).
  - apply Array_sort_Permutation.
  - intros v. apply (Array_sort_stable Score.getOverallScore).
Qed.

(** C10.  In a season that has one Score per player, adding a game leaves,
    in the Score of every player who had one, every game total and every
    bonus component at an index other than the index of the new game as
    it was, and the win counter as it was unless the player is the
    first-place finisher of the new game, whose counter is one higher.  A
    Score made for a player who had none has one win when the player is
    the first-place finisher and no win otherwise. *)
Theorem addGame_frame (s : Season.t) (g : Game.t) (sortScores : bool)
    (q : Player.t) :
  NoDup (Score.player <$> Season.scores s) →
  let s' := Season.addGame s g sortScores in
  let won := if decide (Game.getWinner g = Some q) then 1 else 0 in
  (∀ before, Score.find q (Season.scores s) = Some before →
     ∃ after, Score.find q (Season.scores s') = Some after
       ∧ (∀ k, k ≠ length (Season.games s) →
            array_get (Score.scores after) k
            = array_get (Score.scores before) k
            ∧ array_get (Score.bonusPoints after) k
              = array_get (Score.bonusPoints before) k)
       ∧ Score.wins after = Score.wins before + won)
  ∧ (Score.find q (Season.scores s) = None →
     ∀ after, Score.find q (Season.scores s') = Some after →
       Score.wins after = won).
Proof.
  intros Hnodup s' won.
  assert (Game.getWinner (Season.linked s g) = Game.getWinner g) as Hwinner.
  { unfold Game.getWinner. by rewrite linked_results. }
  split.
  - intros before Hbefore. unfold s'.
    rewrite addGame_find, find_calculateScores, Hbefore, Hwinner by done.
    destruct (last_place _ _ _) as [j|] eqn:Hlast.
    + eexists. split; [reflexivity|]. split.
      * intros k Hk. simpl. by rewrite !array_get_set_ne.
      * done.
    + exists before. split; [done|]. split; [done|].
      unfold won. rewrite decide_False; [lia|].
      intros Hwin. rewrite <- Hwinner in Hwin.
      apply (list_elem_of_lookup_2 _ 0%nat) in Hwin.
      apply (last_place_elem_of q 0) in Hwin as [j Hj]. congruence.
  - intros Hnone after. unfold s'.
    rewrite addGame_find, find_calculateScores, Hnone, Hwinner by done.
    destruct (last_place _ _ _) as [j|]; [|done].
    intros [= <-]. simpl. fold won. lia.
Qed.

(** ** Persisting a season and reading it back *)

Lemma linked_date (s : Season.t) (g : Game.t) :
  Game.date (Season.linked s g) = Game.date g.
Proof. unfold Season.linked. by destruct (list.last _). Qed.

Lemma linked_games (s s' : Season.t) (g : Game.t) :
  Season.games s' = Season.games s → Season.linked s' g = Season.linked s g.
Proof. unfold Season.linked. by intros ->. Qed.

Lemma Game_players_linked (s : Season.t) (g : Game.t) :
  Game_players (Season.linked s g) = Game_players g.
Proof. unfold Game_players. by rewrite linked_results, linked_knockouts. Qed.

Lemma Game_fromObject_toObject (players : list Player.t) (g : Game.t)
    (d : Date) (r : list Player.t) (k : option (list Game.knockout)) :
  Game.date g = d → Game.results g = r → Game.knockouts g = default [] k →
  Forall (λ p, players !! Player.id p = Some p) (Game_players g) →
  Game_fromObject players (Game_toObject g) = Some (Game.new d r k).
Proof.
  intros Hd Hr Hk [Hres Hkos]%Forall_app.
  unfold Game_fromObject, Game_toObject. simpl.
  rewrite (mapM_fmap_Forall_Some _ Player.id _ Hres). simpl.
  rewrite mapM_fmap_Forall_Some.
  - simpl. unfold Game.new. rewrite Hd, Hr, Hk. do 2 f_equal.
    destruct d as [y m dd]. simpl. f_equal. lia.
  - clear Hk. induction (Game.knockouts g) as [|[perp victim] kos IH];
      [constructor|].
    simpl in Hkos. apply Forall_cons in Hkos as [Hperp Hkos].
    apply Forall_cons in Hkos as [Hvictim Hkos].
    constructor; [|by apply IH]. simpl. by rewrite Hperp, Hvictim.
Qed.

Lemma Season_fromObject_addGame (players : list Player.t) (s s0 : Season.t)
    (d : Date) (r : list Player.t) (k : option (list Game.knockout))
    (sortScores : bool) :
  Season_fromObject players (Season_toObject s) = Some s0 →
  Forall (λ p, players !! Player.id p = Some p) (Game_players (Game.new d r k)) →
  Season_fromObject players
    (Season_toObject (Season.addGame s (Game.new d r k) sortScores))
  = Some (Season.addGame s0 (Game.new d r k) false).
Proof.
  intros Hs0 Hplayers. unfold Season_fromObject, Season_toObject in *.
  simpl in *. rewrite fmap_app, foldl_app, Hs0. simpl.
  rewrite (Game_fromObject_toObject players _ d r k); try done.
  - by rewrite linked_date.
  - by rewrite linked_results.
  - by rewrite linked_knockouts.
  - by rewrite Game_players_linked.
Qed.

Lemma season_round_trip_built (players : list Player.t) (s : Season.t) :
  Season_built s →
  Forall (λ g, Forall (λ p, players !! Player.id p = Some p) (Game_players g))
    (Season.games s) →
  ∃ s', Season_fromObject players (Season_toObject s) = Some s'
    ∧ Season.name s' = Season.name s
    ∧ Season.games s' = Season.games s
    ∧ NoDup (Score.player <$> Season.scores s')
    ∧ ∀ q, Score.find q (Season.scores s') = Score.find q (Season.scores s).
Proof.
  induction 1 as [name|s d r k sortScores Hbuilt IH].
  - intros _. exists (Season.new name). split_and!; try done. constructor.
  - rewrite addGame_games. intros [Hgames Hgame]%Forall_app.
    apply Forall_inv in Hgame. rewrite Game_players_linked in Hgame.
    destruct (IH Hgames) as (s0 & Hs0 & Hname & Hgs & Hnodup & Hfind).
    exists (Season.addGame s0 (Game.new d r k) false). split_and!.
    + by apply Season_fromObject_addGame.
    + done.
    + by rewrite !addGame_games, Hgs, (linked_games s s0).
    + by apply addGame_NoDup.
    + intros q. rewrite !addGame_find, (linked_games s s0);
        [|done|by apply Season_built_NoDup|done].
      by apply calculateScores_ext.
Qed.

(** C6.  A season made by the application (games fresh from the
    constructor, added one by one), all of whose players are in the Player
    directory at their id, is read back from its persisted record: the
    rehydrated season has the same name and the same games, with the same
    bountyPlayers and fishChipper, the same Score for every player, hence
    the same row of the league table (games played, wins, average, bonus
    points, lowest weekly points, overall score), and its Score collection
    holds the Scores of the original. *)
Theorem season_round_trip (players : list Player.t) (s : Season.t) :
  Season_built s →
  Forall (λ g, Forall (λ p, players !! Player.id p = Some p) (Game_players g))
    (Season.games s) →
  ∃ s', Season_fromObject players (Season_toObject s) = Some s'
    ∧ Season.name s' = Season.name s
    ∧ Season.games s' = Season.games s
    ∧ Game.bountyPlayers <$> Season.games s'
      = Game.bountyPlayers <$> Season.games s
    ∧ Game.fishChipper <$> Season.games s'
      = Game.fishChipper <$> Season.games s
    ∧ (∀ q, Score.find q (Season.scores s') = Score.find q (Season.scores s))
    ∧ (∀ toFixed1 q,
         Score.league_table_row toFixed1 <$> Score.find q (Season.scores s')
         = Score.league_table_row toFixed1 <$> Score.find q (Season.scores s))
    ∧ Season.scores s' ≡ₚ Season.scores s.
Proof.
  intros Hbuilt Hplayers.
  destruct (season_round_trip_built players s Hbuilt Hplayers)
    as (s' & Hs' & Hname & Hgames & Hnodup & Hfind).
  exists s'. split_and!; try done.
  - by rewrite Hgames.
  - by rewrite Hgames.
  - intros toFixed1 q. by rewrite Hfind.
  - apply find_ext_Permutation; [done|by apply Season_built_NoDup|done].
Qed.

(** ** Worked seasons *)

Example paid_players_examples :
  length (Game.getPaidPlayers Examples.G1) = 2%nat
  ∧ length (Game.getPaidPlayers Examples.G3) = 1%nat
  ∧ length (Game.getPaidPlayers (Game.new (mkDate 2012 2 7) [Examples.A; Examples.B] None))
    = 0%nat.
Proof. by vm_compute. Qed.

Example second_game_example :
  ∃ g1 g2, Season.games Examples.season2 = [g1; g2]
    ∧ Game.bountyPlayers g2 = Some [Examples.A; Examples.B; Examples.C]
    ∧ Game.fishChipper g2 = Some Examples.F
    ∧ Game.calculateFishChipBonus g2 Examples.F = 0
    ∧ Game.calculateBountyBonus g2 Examples.C = 2
    ∧ Game.calculateBountyBonus g2 Examples.A = 0
    ∧ Score.scores <$> Score.find Examples.C (Season.scores Examples.season2)
      = Some [Some 11; Some 17]
    ∧ Score.bonusPoints <$> Score.find Examples.C (Season.scores Examples.season2)
      = Some [Some 0; Some 2]
    ∧ Score.wins <$> Season.scores Examples.season2 = [1; 0; 1; 0; 0; 0].
Proof. do 2 eexists. by vm_compute. Qed.

Example third_game_example :
  ∃ g3, list.last (Season.games Examples.season3) = Some g3
    ∧ Game.bountyPlayers g3 = Some [Examples.D; Examples.E; Examples.F]
    ∧ Game.fishChipper g3 = Some Examples.F
    ∧ Game.calculateFishChipBonus g3 Examples.F = 1
    ∧ Score.player <$> Season.scores Examples.season3
      = [Examples.D; Examples.A; Examples.C; Examples.E; Examples.F; Examples.B]
    ∧ Score.getOverallScore <$> Season.scores Examples.season3
      = [29; 28; 28; 27; 26; 24]
    ∧ Score.scores <$> Score.find Examples.F (Season.scores Examples.season3)
      = Some [Some 5; Some 5; Some 16].
Proof. eexists. by vm_compute. Qed.

Example overall_score_examples :
  Score.getOverallScore Examples.twelve = 70
  ∧ Score.getOverallScore Examples.five = 32
  ∧ Score.getOverallScore (Score.new Examples.A) = 0.
Proof. by vm_compute. Qed.

(** ** The theorems at concrete inputs *)

Lemma overall_score_best_nine_witness :
  Score.getOverallScore Examples.twelve
  = foldr Z.add 0 [15; 13; 11; 9; 7; 5; 4; 3; 3]
  ∧ Score.getOverallScore Examples.five = foldr Z.add 0 [4; 15; 2; 2; 9].
Proof.
  split.
  - apply (proj1 (proj2 (overall_score_best_nine Examples.twelve))
             [15; 13; 11; 9; 7; 5; 4; 3; 3] [1; 2; 2]).
    + apply (bool_decide_unpack _). vm_compute. reflexivity.
    + reflexivity.
    + intros x y Hx Hy. elem_of_cases Hx; elem_of_cases Hy; lia.
  - apply (proj1 (proj2 (proj2 (overall_score_best_nine Examples.five)))).
    simpl. lia.
Defined.

Lemma fish_chip_bonus_witness :
  ∃ g3, list.last (Season.games Examples.season3) = Some g3
    ∧ Game.calculateFishChipBonus g3 Examples.F = 1
    ∧ Game.calculateFishChipBonus g3 Examples.E = 0.
Proof.
  eexists. split; [vm_compute; reflexivity|]. split.
  - apply (proj1 (fish_chip_bonus _ Examples.F)). split.
    + vm_compute. reflexivity.
    + apply (bool_decide_unpack _). vm_compute. reflexivity.
  - apply (proj1 (proj2 (fish_chip_bonus _ Examples.E))).
    intros [Hfish _]. vm_compute in Hfish. discriminate.
Defined.

Lemma addGame_frame_witness :
  ∃ after,
    Score.find Examples.F (Season.scores Examples.season3) = Some after
    ∧ array_get (Score.scores after) 0 = Some 5
    ∧ array_get (Score.scores after) 1 = Some 5
    ∧ Score.wins after = 1.
Proof.
  destruct (addGame_frame Examples.season2 Examples.G3 false Examples.F)
    as [Hframe _].
  { apply (bool_decide_unpack _). vm_compute. reflexivity. }
  destruct (Hframe (Score.mk Examples.F [Some 5; Some 5] [Some 0; Some 0] 0))
    as (after & Hafter & Hsame & Hwins).
  { vm_compute. reflexivity. }
  exists after. split; [exact Hafter|].
  split; [|split].
  - apply (Hsame 0%nat). simpl. lia.
  - apply (Hsame 1%nat). simpl. lia.
  - rewrite Hwins. vm_compute. reflexivity.
Defined.

Lemma season_round_trip_witness :
  ∃ s', Season_fromObject Examples.directory (Season_toObject Examples.season3)
        = Some s'
    ∧ Season.games s' = Season.games Examples.season3
    ∧ Score.find Examples.C (Season.scores s')
      = Score.find Examples.C (Season.scores Examples.season3).
Proof.
  destruct (season_round_trip Examples.directory Examples.season3)
    as (s' & Hs' & _ & Hgames & _ & _ & Hfind & _).
  - repeat apply built_addGame. apply built_new.
  - apply (bool_decide_unpack _). vm_compute. reflexivity.
  - exists s'. split; [exact Hs'|]. split; [exact Hgames|]. apply Hfind.
Defined.

(** * Further properties of the code *)

(** ** The Player directory *)

Lemma addPlayer_ids (name : string) (players : list Player.t) :
  Player.id <$> players = seq 0 (length players) →
  Player.id <$> addPlayer name players = seq 0 (length (addPlayer name players)).
Proof.
  intros Hids. unfold addPlayer. destruct (decide (name = "")); [done|].
  rewrite fmap_app, length_app, Hids. simpl.
  by rewrite Nat.add_1_r, seq_S.
Qed.

Lemma directory_of_snoc (names : list string) (name : string) :
  directory_of (names ++ [name]) = addPlayer name (directory_of names).
Proof. unfold directory_of. by rewrite foldl_app. Qed.

Lemma ids_seq_lookup (players : list Player.t) :
  Player.id <$> players = seq 0 (length players) →
  Forall (λ p, players !! Player.id p = Some p) players.
Proof.
  intros Hids. apply Forall_lookup. intros i p Hi.
  assert ((Player.id <$> players) !! i = Some (Player.id p)) as Hid
    by (by rewrite list_lookup_fmap, Hi).
  rewrite Hids in Hid. apply lookup_seq in Hid as [-> _]. done.
Qed.

(** X1.  A directory filled through addPlayer gives every player the
    index at which it is stored as id: the ids are 0, 1, 2, ... in order,
    so [players[p.id]] is [p] for every player; the names are the
    non-empty names that were entered, in order; and storing the players
    with toObject and reading them back with fromObject gives the same
    directory. *)
Theorem directory_of_wf (names : list string) :
  let players := directory_of names in
  Player.id <$> players = seq 0 (length players)
  ∧ Forall (λ p, players !! Player.id p = Some p) players
  ∧ Player.name <$> players = filter (λ name, name ≠ "") names
  ∧ Player_fromObject <$> (Player_toObject <$> players) = players.
Proof.
  intros players.
  assert (Player.id <$> players = seq 0 (length players)) as Hids.
  { unfold players. induction names as [|name names IH] using rev_ind; [done|].
    rewrite directory_of_snoc. by apply addPlayer_ids. }
  split; [done|]. split; [by apply ids_seq_lookup|]. split.
  - unfold players. clear. induction names as [|name names IH] using rev_ind; [done|].
    rewrite directory_of_snoc, filter_app, <- IH. unfold addPlayer.
    rewrite filter_cons, filter_nil.
    destruct (decide (name = "")) as [->|Hname].
    + by rewrite decide_False, app_nil_r by (by intros ?).
    + by rewrite decide_True, fmap_app by done.
  - rewrite <- list_fmap_compose. rewrite <- (list_fmap_id players) at 2.
    apply list_fmap_ext. by intros _ [??] _.
Qed.

(** ** getOrCreate *)

Lemma find_app (p : Player.t) (l k : list Score.t) :
  Score.find p (l ++ k)
  = match Score.find p l with Some s => Some s | None => Score.find p k end.
Proof.
  induction l as [|s l IH]; [done|]. simpl. rewrite !find_cons.
  by destruct (decide _).
Qed.

Lemma position_find (p : Player.t) (scores : list Score.t) :
  match Score.position p scores with
  | Some k => scores !! k = Score.find p scores ∧ is_Some (Score.find p scores)
  | None => Score.find p scores = None
  end.
Proof.
  induction scores as [|s scores IH]; [done|].
  rewrite position_cons, find_cons. destruct (decide _); [by eauto|].
  by destruct (Score.position p scores).
Qed.

(** X2.  getOrCreate returns a place of the collection that holds a Score
    of the player asked for.  When the player already has a Score, the
    collection is left as it is and the first such Score is returned;
    otherwise one new Score, with no game and no win, is pushed at the
    end and returned.  Asking again returns the same place and adds
    nothing. *)
Theorem getOrCreate_spec (p : Player.t) (scores : list Score.t) :
  let k := (Score.getOrCreate p scores).1 in
  let scores' := (Score.getOrCreate p scores).2 in
  ∃ s, scores' !! k = Some s
    ∧ Score.player s = p
    ∧ Score.find p scores' = Some s
    ∧ match Score.find p scores with
      | Some s0 => s = s0 ∧ scores' = scores
      | None => s = Score.new p ∧ scores' = scores ++ [s] ∧ k = length scores
      end
    ∧ Score.getOrCreate p scores' = (k, scores').
Proof.
  unfold Score.getOrCreate. pose proof (position_find p scores) as Hpos.
  destruct (Score.position p scores) as [k|] eqn:Hk; simpl.
  - destruct Hpos as [Hlook [s Hs]]. exists s. rewrite Hs in *.
    split; [done|]. split; [by apply find_Some_elem_of in Hs as [_ ?]|].
    split; [done|]. split; [done|]. by rewrite Hk.
  - exists (Score.new p). rewrite Hpos.
    assert (Score.find p (scores ++ [Score.new p]) = Some (Score.new p)) as Hfind.
    { rewrite find_app, Hpos, find_cons. simpl. by rewrite decide_True. }
    split; [by rewrite lookup_app_r, Nat.sub_diag|].
    split; [done|]. split; [done|]. split; [done|].
    pose proof (position_find p (scores ++ [Score.new p])) as Hpos'.
    destruct (Score.position p (scores ++ [Score.new p])) as [k'|] eqn:Hk';
      [|congruence].
    destruct Hpos' as [Hlook _]. rewrite Hfind in Hlook. f_equal.
    destruct (decide (k' < length scores)%nat) as [Hlt|Hge].
    + rewrite lookup_app_l in Hlook by done.
      apply list_elem_of_lookup_2 in Hlook.
      by apply (find_None_elem_of p) in Hlook.
    + apply lookup_lt_Some in Hlook. rewrite length_app in Hlook.
      simpl in Hlook. lia.
Qed.

(** ** Aggregates of a Score *)

(** X3.  A Score without any recorded game total (its array of totals
    is empty or has only holes) shows no game played, an average of 0 (the
    number, not a formatted string), a lowest weekly score of 0 and an
    overall score of 0, whatever the formatting of averages; a Score that
    has just been made or reset is such a Score, with no win and no bonus
    point, and reset keeps the player. *)
Theorem zero_games_row (toFixed1 : Z → nat → string) (p : Player.t)
    (s : Score.t) :
  (Score.getGameScores s = [] →
     Score.getGamesPlayed s = 0%nat
     ∧ Score.getAveragePointsPerGame toFixed1 s = inl 0
     ∧ Score.getLowestWeeklyPoints s = 0
     ∧ Score.getOverallScore s = 0)
  ∧ Score.league_table_row toFixed1 (Score.new p) = (0%nat, 0, inl 0, 0, 0, 0)
  ∧ Score.reset s = Score.new (Score.player s).
Proof.
  split; [|done]. intros Hnone.
  unfold Score.getGamesPlayed, Score.getAveragePointsPerGame,
    Score.getLowestWeeklyPoints, Score.getOverallScore.
  by rewrite Hnone.
Qed.

Lemma zero_games_row_witness :
  Score.getOverallScore (Score.mk Examples.A [None; None] [] 0) = 0
  ∧ Score.getAveragePointsPerGame (λ _ _, "-")
      (Score.mk Examples.A [None; None] [] 0) = inl 0.
Proof.
  destruct (proj1 (zero_games_row (λ _ _, "-") Examples.A
                     (Score.mk Examples.A [None; None] [] 0)) eq_refl)
    as (_ & Haverage & _ & Hoverall).
  split; [exact Hoverall|exact Haverage].
Defined.

Lemma foldl_min_spec (x : Z) (rest : list Z) :
  foldl Z.min x rest ∈ x :: rest ∧ Forall (λ y, foldl Z.min x rest ≤ y) (x :: rest).
Proof.
  revert x. induction rest as [|y rest IH]; intros x; simpl.
  - split; [left|]. repeat constructor. lia.
  - destruct (IH (x `min` y)) as [Hin Hle]. split.
    + apply elem_of_cons in Hin as [Hin|Hin].
      * rewrite Hin. destruct (Z.min_spec x y) as [[_ ->]|[_ ->]];
          [left|right; left].
      * by do 2 right.
    + apply Forall_cons in Hle as [Hmin Hle].
      constructor; [lia|]. constructor; [lia|done].
Qed.

(** X4.  With at least one recorded game, getLowestWeeklyPoints is one of
    the recorded game totals and no recorded total is below it; missed
    games (holes) do not count.  With no recorded game it is 0. *)
Theorem lowest_weekly_points_min (s : Score.t) :
  match Score.getGameScores s with
  | [] => Score.getLowestWeeklyPoints s = 0
  | _ :: _ =>
      Score.getLowestWeeklyPoints s ∈ Score.getGameScores s
      ∧ Forall (λ y, Score.getLowestWeeklyPoints s ≤ y) (Score.getGameScores s)
  end.
Proof.
  unfold Score.getLowestWeeklyPoints.
  destruct (Score.getGameScores s) as [|x rest]; [done|]. apply foldl_min_spec.
Qed.

Lemma Array_sort_numbers_Permutation (l k : list Z) :
  l ≡ₚ k → Array_sort (λ a b, b - a) l = Array_sort (λ a b, b - a) k.
Proof.
  intros Hperm. apply (StronglySorted_unique (λ a b : Z, b ≤ a)).
  - apply (Array_sort_sorted (λ z : Z, z)).
  - apply (Array_sort_sorted (λ z : Z, z)).
  - by rewrite !Array_sort_Permutation.
Qed.

(** X5.  The overall score depends only on which totals are recorded, not
    on the games they were recorded for: two Scores whose recorded totals
    are the same up to order (holes apart) have the same overall score. *)
Theorem overall_score_order_irrelevant (s1 s2 : Score.t) :
  Score.getGameScores s1 ≡ₚ Score.getGameScores s2 →
  Score.getOverallScore s1 = Score.getOverallScore s2.
Proof.
  intros Hperm. unfold Score.getOverallScore.
  by rewrite (Array_sort_numbers_Permutation _ _ Hperm).
Qed.

Lemma overall_score_order_irrelevant_witness :
  Score.getOverallScore
    (Score.mk Examples.A [Some 3; None; Some 15; Some 7] [] 0)
  = Score.getOverallScore
      (Score.mk Examples.B [Some 15; Some 7; None; None; Some 3] [] 2).
Proof.
  apply overall_score_order_irrelevant.
  apply (bool_decide_unpack _). vm_compute. reflexivity.
Defined.

(** ** Placement points, paid players and bonuses *)

Lemma countdown_sorted (e : Z) (a n : nat) :
  StronglySorted (λ x y : Z, y < x) ((λ j : nat, e - Z.of_nat j) <$> seq a n).
Proof.
  revert a. induction n as [|n IH]; intros a; [constructor|].
  simpl. constructor; [apply IH|].
  apply Forall_fmap, Forall_seq. intros j Hj. simpl. lia.
Qed.

Lemma placementPoints_sorted (N : nat) :
  StronglySorted (λ x y : Z, y < x) (Game.placementPoints N).
Proof.
  unfold Game.placementPoints, Game.DEFAULT_POINTS.
  destruct (decide _) as [Hlt|Hge].
  - rewrite push_extra_app. simpl length. set (e := (N - 10)%nat).
    apply StronglySorted_app_2.
    + intros x y Hx (j & -> & Hj%elem_of_seq)%list_elem_of_fmap.
      simpl in Hx. elem_of_cases Hx; lia.
    + simpl. repeat (constructor; [|repeat (constructor; [lia|]); constructor]).
      constructor.
    + apply countdown_sorted.
  - repeat (constructor; [|repeat (constructor; [lia|]); constructor]).
    constructor.
Qed.

Lemma placementPoints_positive (N : nat) :
  Forall (λ x, 1 ≤ x) (Game.placementPoints N).
Proof.
  unfold Game.placementPoints, Game.DEFAULT_POINTS.
  destruct (decide _) as [Hlt|Hge].
  - rewrite push_extra_app. simpl length. apply Forall_app. split.
    + simpl. repeat (constructor; [lia|]). constructor.
    + apply Forall_fmap, Forall_seq. intros j Hj. simpl. lia.
  - repeat (constructor; [lia|]). constructor.
Qed.

(** X6.  Whatever the number of finishers, the placement points vector is
    strictly decreasing and all its values are at least 1: a better
    finishing position always earns strictly more placement points, and
    nobody who finishes earns less than 1. *)
Theorem placement_points_decreasing (N : nat) :
  StronglySorted (λ x y : Z, y < x) (Game.placementPoints N)
  ∧ Forall (λ x, 1 ≤ x) (Game.placementPoints N).
Proof. split; [apply placementPoints_sorted|apply placementPoints_positive]. Qed.

(** X7.  getPaidPlayers returns the first floor(N / 3) finishers, in
    finishing order.  With fewer than 3 finishers nobody is paid, and then
    no player gets the fish-chip bonus, whoever holds the fish-chip. *)
Theorem paid_players_prefix (g : Game.t) :
  length (Game.getPaidPlayers g) = (length (Game.results g) / 3)%nat
  ∧ Game.getPaidPlayers g `prefix_of` Game.results g
  ∧ ((length (Game.results g) < 3)%nat →
       Game.getPaidPlayers g = []
       ∧ ∀ p, Game.calculateFishChipBonus g p = 0).
Proof.
  rewrite getPaidPlayers_take. split; [|split].
  - rewrite length_take.
    pose proof (Nat.div_mod (length (Game.results g)) 3 ltac:(lia)). lia.
  - apply prefix_take.
  - intros Hlt. rewrite Nat.div_small by done. split; [done|].
    intros p. rewrite calculateFishChipBonus_cases, Nat.div_small by done.
    rewrite decide_False; [done|]. intros [_ Hin]. by apply elem_of_nil in Hin.
Qed.

Lemma paid_players_prefix_witness :
  Game.calculateFishChipBonus
    (Game.setPreviousGameInfo
       (Game.new (mkDate 2012 2 14) [Examples.F; Examples.A] None)
       Examples.G1) Examples.F = 0.
Proof.
  apply (proj2 (proj2 (paid_players_prefix _))). simpl. lia.
Defined.

Lemma calculateBountyBonus_loop_bounds (p : Player.t) (bounties : list Player.t)
    (kos : list Game.knockout) (a : Z) :
  a ≤ foldl (λ bountyBonus (ko : Game.knockout),
               if decide (ko.1 = p ∧ indexOf ko.2 bounties ≠ -1)
               then bountyBonus + Game.BOUNTY_BONUS else bountyBonus) a kos
    ≤ a + Z.of_nat (length (filter (λ ko : Game.knockout, ko.1 = p) kos)).
Proof.
  revert a. induction kos as [|ko kos IH]; intros a; simpl; [lia|].
  rewrite filter_cons. unfold Game.BOUNTY_BONUS in *.
  destruct (decide (ko.1 = p ∧ _)) as [[Hp _]|Hko].
  - rewrite decide_True by done. specialize (IH (a + 1)). simpl length. lia.
  - specialize (IH a). destruct (decide (ko.1 = p)); simpl length; lia.
Qed.

Lemma calculateBountyBonus_nonneg (g : Game.t) (p : Player.t) :
  0 ≤ Game.calculateBountyBonus g p.
Proof.
  unfold Game.calculateBountyBonus.
  destruct (Game.bountyPlayers g) as [bounties|]; [|lia].
  apply (calculateBountyBonus_loop_bounds p bounties _ 0).
Qed.

Lemma calculateFishChipBonus_nonneg (g : Game.t) (p : Player.t) :
  0 ≤ Game.calculateFishChipBonus g p.
Proof. rewrite calculateFishChipBonus_cases. destruct (decide _); lia. Qed.

(** X8.  The bounty bonus of a player is never negative and never more
    than the number of knockouts recorded with this player as the
    perpetrator; knockouts by other players, and a game without bounties,
    give nothing. *)
Theorem bounty_bonus_bounds (g : Game.t) (p : Player.t) :
  0 ≤ Game.calculateBountyBonus g p
    ≤ Z.of_nat (length (filter (λ ko : Game.knockout, ko.1 = p) (Game.knockouts g)))
  ∧ (Game.calculateBountyBonus g p
     ≤ Z.of_nat (length (Game.knockouts g))).
Proof.
  assert (0 ≤ Game.calculateBountyBonus g p
    ≤ Z.of_nat (length (filter (λ ko : Game.knockout, ko.1 = p)
                          (Game.knockouts g)))) as Hbounds.
  { unfold Game.calculateBountyBonus.
    destruct (Game.bountyPlayers g) as [bounties|]; [|lia].
    apply (calculateBountyBonus_loop_bounds p bounties _ 0). }
  split; [done|].
  pose proof (length_filter (λ ko : Game.knockout, ko.1 = p) (Game.knockouts g)).
  lia.
Qed.

(** ** What setPreviousGameInfo keeps and what it leaves alone *)

Lemma setPreviousGameInfo_bountyPlayers (g previous : Game.t) :
  Game.bountyPlayers (Game.setPreviousGameInfo g previous)
  = Some (take 3 (filter (.∈ Game.results g) (Game.results previous))).
Proof. simpl. by rewrite bounty_loop_take by (simpl; lia). Qed.

Lemma setPreviousGameInfo_fishChipper (g previous : Game.t) :
  Game.fishChipper (Game.setPreviousGameInfo g previous)
  = match head (filter (.∈ Game.results g) (reverse (Game.results previous))) with
    | Some player => Some player
    | None => Game.fishChipper g
    end.
Proof. simpl. by rewrite fish_loop_head, firstn_all by done. Qed.

(** X9.  setPreviousGameInfo changes only bountyPlayers and fishChipper.
    The bounty players are at most 3, they are finishers of both games,
    and they keep the finishing order of the previous game (each previous
    finisher appears at most once among them when the previous results
    have no repetition).  The fishChipper afterwards is either a finisher
    of both games or the value the field had before the call. *)
Theorem previous_game_info_members (g previous : Game.t) :
  let g' := Game.setPreviousGameInfo g previous in
  Game.index g' = Game.index g
  ∧ Game.date g' = Game.date g
  ∧ Game.results g' = Game.results g
  ∧ Game.knockouts g' = Game.knockouts g
  ∧ (∃ bounties,
       Game.bountyPlayers g' = Some bounties
       ∧ (length bounties ≤ 3)%nat
       ∧ bounties `sublist_of` Game.results previous
       ∧ Forall (λ p, p ∈ Game.results g ∧ p ∈ Game.results previous) bounties
       ∧ (NoDup (Game.results previous) → NoDup bounties))
  ∧ (Game.fishChipper g' = Game.fishChipper g
     ∨ ∃ p, Game.fishChipper g' = Some p
         ∧ p ∈ Game.results g ∧ p ∈ Game.results previous).
Proof.
  intros g'. split_and!; try done.
  - eexists. split; [apply setPreviousGameInfo_bountyPlayers|].
    assert (take 3 (filter (.∈ Game.results g) (Game.results previous))
            `sublist_of` Game.results previous) as Hsub.
    { etrans; [apply sublist_take|apply sublist_filter]. }
    split_and!.
    + rewrite length_take. lia.
    + done.
    + apply Forall_forall. intros p (i & Hi & _)%elem_of_take.
      apply list_elem_of_lookup_2, list_elem_of_filter in Hi. done.
    + intros Hnodup. eapply sublist_NoDup; eassumption.
  - unfold g'. rewrite setPreviousGameInfo_fishChipper.
    destruct (head _) as [p|] eqn:Hhead; [|by left]. right. exists p.
    apply head_Some_elem_of, list_elem_of_filter in Hhead as [? Hin].
    rewrite elem_of_reverse in Hin. by split_and!.
Qed.

Lemma previous_game_info_members_witness :
  ∃ bounties,
    Game.bountyPlayers (Game.setPreviousGameInfo Examples.G3 Examples.G2)
    = Some bounties ∧ NoDup bounties.
Proof.
  destruct (previous_game_info_members Examples.G3 Examples.G2)
    as (_ & _ & _ & _ & (bounties & Hb & _ & _ & _ & Hnodup) & _).
  exists bounties. split; [exact Hb|]. apply Hnodup.
  apply (bool_decide_unpack _). vm_compute. reflexivity.
Defined.

Lemma Game_ext (a b : Game.t) :
  Game.index a = Game.index b → Game.date a = Game.date b →
  Game.results a = Game.results b → Game.knockouts a = Game.knockouts b →
  Game.bountyPlayers a = Game.bountyPlayers b →
  Game.fishChipper a = Game.fishChipper b → a = b.
Proof. destruct a, b. simpl. by intros -> -> -> -> -> ->. Qed.

(** X10.  setPreviousGameInfo always recomputes bountyPlayers but never
    clears fishChipper: when no finisher of the previous game finishes in
    this game, bountyPlayers becomes the empty list while fishChipper
    keeps whatever value it had.  Calling it a second time with the same
    previous game changes nothing. *)
Theorem previous_game_info_no_overlap (g previous : Game.t) :
  (Forall (λ p, p ∉ Game.results g) (Game.results previous) →
     Game.bountyPlayers (Game.setPreviousGameInfo g previous) = Some []
     ∧ Game.fishChipper (Game.setPreviousGameInfo g previous)
       = Game.fishChipper g)
  ∧ Game.setPreviousGameInfo (Game.setPreviousGameInfo g previous) previous
    = Game.setPreviousGameInfo g previous.
Proof.
  split.
  - intros Hnone.
    assert (∀ l, Forall (λ p, p ∉ Game.results g) l →
                 filter (.∈ Game.results g) l = []) as Hfilter.
    { induction 1 as [|p l Hp _ IH]; [done|].
      by rewrite filter_cons, decide_False. }
    rewrite setPreviousGameInfo_bountyPlayers, setPreviousGameInfo_fishChipper.
    rewrite !Hfilter; [done|by apply Forall_reverse|done].
  - apply Game_ext; try done.
    rewrite !setPreviousGameInfo_fishChipper.
    change (Game.results (Game.setPreviousGameInfo g previous))
      with (Game.results g).
    by destruct (head _).
Qed.

Lemma previous_game_info_no_overlap_witness :
  let stale := Game.setPreviousGameInfo
                 (Game.setPreviousGameInfo Examples.G3 Examples.G2)
                 (Game.new (mkDate 2012 2 20) [Examples.A; Examples.B] None) in
  Game.bountyPlayers stale = Some []
  ∧ Game.fishChipper stale = Some Examples.F.
Proof.
  intros stale.
  apply (proj1 (previous_game_info_no_overlap
                  (Game.setPreviousGameInfo Examples.G3 Examples.G2)
                  (Game.new (mkDate 2012 2 20) [Examples.A; Examples.B] None))).
  apply (bool_decide_unpack _). vm_compute. reflexivity.
Defined.

(** ** What calculateScores stores *)

Lemma last_place_NoDup (q : Player.t) (i j : nat) (rest : list Player.t) :
  NoDup rest → rest !! j = Some q → last_place q i rest = Some (i + j)%nat.
Proof.
  revert i j. induction rest as [|p rest IH]; intros i j Hnodup Hj; [done|].
  apply NoDup_cons in Hnodup as [Hp Hnodup]. simpl.
  destruct j as [|j]; simpl in Hj.
  - injection Hj as ->.
    destruct (last_place q (S i) rest) as [j|] eqn:Hlast.
    + exfalso. apply Hp. apply (last_place_elem_of q (S i)). by eexists.
    + rewrite decide_True by done. f_equal. lia.
  - rewrite (IH (S i) j) by done. f_equal. lia.
Qed.

Lemma last_place_lookup (q : Player.t) (i j : nat) (rest : list Player.t) :
  last_place q i rest = Some j → (i ≤ j)%nat ∧ rest !! (j - i)%nat = Some q.
Proof.
  revert i. induction rest as [|p rest IH]; intros i; [done|]. simpl.
  destruct (last_place q (S i) rest) as [j'|] eqn:Hlast.
  - intros [= ->]. destruct (IH (S i) Hlast) as [Hle Hlook].
    split; [lia|]. by replace (j - i)%nat with (S (j - S i)) by lia.
  - destruct (decide (q = p)) as [->|]; [|done]. intros [= ->].
    split; [lia|]. by rewrite Nat.sub_diag.
Qed.

(** X11.  calculateScores, for a game whose results have no repetition
    and which has its index: the player who finished at position j ends
    with a Score whose entry at the index of the game is the placement
    points of position j plus the fish-chip and bounty bonuses, whose
    bonus entry there is the sum of the two bonuses, whose other entries
    are as before, and whose win counter went up by one exactly when
    j = 0.  The Score of a player who did not finish is not touched, and
    none is made for such a player. *)
Theorem calculateScores_records (g : Game.t) (scores : list Score.t)
    (q : Player.t) :
  (q ∉ Game.results g →
     Score.find q (Game.calculateScores g scores) = Score.find q scores)
  ∧ (∀ j idx,
       NoDup (Game.results g) → Game.results g !! j = Some q →
       Game.index g = Some idx →
       let before := default (Score.new q) (Score.find q scores) in
       let bonus :=
         Game.calculateFishChipBonus g q + Game.calculateBountyBonus g q in
       ∃ after, Score.find q (Game.calculateScores g scores) = Some after
         ∧ Score.player after = Score.player before
         ∧ array_get (Score.scores after) idx
           = Some (Game.placementPoints (length (Game.results g)) !!! j + bonus)
         ∧ array_get (Score.bonusPoints after) idx = Some bonus
         ∧ (∀ k, k ≠ idx →
              array_get (Score.scores after) k
              = array_get (Score.scores before) k
              ∧ array_get (Score.bonusPoints after) k
                = array_get (Score.bonusPoints before) k)
         ∧ Score.wins after
           = Score.wins before + (if decide (j = 0%nat) then 1 else 0)).
Proof.
  split.
  - intros Hq. rewrite find_calculateScores.
    destruct (last_place q 0 (Game.results g)) as [j|] eqn:Hlast; [|done].
    exfalso. apply Hq. apply (last_place_elem_of q 0). by eexists.
  - intros j idx Hnodup Hj Hidx before bonus.
    rewrite find_calculateScores, (last_place_NoDup q 0 j) by done.
    eexists. split; [reflexivity|]. unfold scored. rewrite Hidx. simpl.
    split_and!; try done.
    + by rewrite array_get_set_eq.
    + by rewrite array_get_set_eq.
    + intros k Hk. by rewrite !array_get_set_ne.
    + f_equal. unfold Game.getWinner.
      destruct j as [|j].
      * by rewrite !decide_True.
      * rewrite !decide_False; [done..|].
        intros H0.
        by pose proof (proj1 (NoDup_alt _) Hnodup 0%nat (S j) q H0 Hj).
Qed.

Lemma calculateScores_records_witness :
  ∃ after,
    Score.find Examples.F
      (Game.calculateScores (Season.linked Examples.season2 Examples.G3)
         (Season.scores Examples.season2)) = Some after
    ∧ array_get (Score.scores after) 2 = Some 16
    ∧ array_get (Score.bonusPoints after) 2 = Some 1
    ∧ Score.find Examples.A
        (Game.calculateScores (Season.linked Examples.season2 Examples.G3)
           (Season.scores Examples.season2))
      = Score.find Examples.A (Season.scores Examples.season2).
Proof.
  destruct (calculateScores_records (Season.linked Examples.season2 Examples.G3)
              (Season.scores Examples.season2) Examples.F) as [_ Hfinisher].
  destruct (Hfinisher 0%nat 2%nat) as (after & Hafter & _ & Ht & Hb & _).
  { apply (bool_decide_unpack _). vm_compute. reflexivity. }
  { reflexivity. }
  { reflexivity. }
  exists after. split; [exact Hafter|]. split; [exact Ht|]. split; [exact Hb|].
  apply (proj1 (calculateScores_records _ _ Examples.A)).
  apply (bool_decide_unpack _). vm_compute. reflexivity.
Defined.

Lemma score_loop_players_prefix (g : Game.t) (points : list Z) (i : nat)
    (rest : list Player.t) (scores : list Score.t) :
  (Score.player <$> scores)
    `prefix_of` (Score.player <$> Game.score_loop g points i rest scores)
  ∧ ∀ p, p ∈ Score.player <$> Game.score_loop g points i rest scores
         ↔ p ∈ Score.player <$> scores ∨ p ∈ rest.
Proof.
  revert i scores. induction rest as [|q rest IH]; intros i scores.
  - split; [done|]. intros p. rewrite elem_of_nil. tauto.
  - simpl. destruct (IH (S i) (Game.score_player g points i q scores))
      as [Hprefix Helem].
    assert (Score.player <$> Game.score_player g points i q scores
            = if decide (q ∈ Score.player <$> scores)
              then Score.player <$> scores
              else (Score.player <$> scores) ++ [q]) as Hstep.
    { rewrite score_player_update.
      apply update_score_players, score_update_player. }
    rewrite Hstep in Hprefix. split.
    + destruct (decide _); [done|]. by eapply prefix_app_l.
    + intros p. rewrite Helem, Hstep, elem_of_cons.
      destruct (decide _) as [Hin|Hnotin].
      * split; [tauto|]. intros [?|[->|?]]; tauto.
      * rewrite elem_of_app, list_elem_of_singleton. tauto.
Qed.

(** X12.  calculateScores never removes or reorders Scores: the players
    of the collection before are a prefix of the players after, a player
    has a Score afterwards exactly when it had one before or is among the
    finishers, and a collection with one Score per player stays so. *)
Theorem calculateScores_players (g : Game.t) (scores : list Score.t) :
  (Score.player <$> scores)
    `prefix_of` (Score.player <$> Game.calculateScores g scores)
  ∧ (∀ p, p ∈ Score.player <$> Game.calculateScores g scores
          ↔ p ∈ Score.player <$> scores ∨ p ∈ Game.results g)
  ∧ (NoDup (Score.player <$> scores) →
     NoDup (Score.player <$> Game.calculateScores g scores)).
Proof.
  destruct (score_loop_players_prefix g
              (Game.placementPoints (length (Game.results g))) 0
              (Game.results g) scores) as [Hprefix Helem].
  split; [done|]. split; [done|]. apply calculateScores_NoDup.
Qed.

Lemma calculateScores_players_witness :
  Examples.E ∈ Score.player
    <$> Game.calculateScores Examples.G3 [Score.new Examples.A]
  ∧ NoDup (Score.player
             <$> Game.calculateScores Examples.G3 [Score.new Examples.A]).
Proof.
  destruct (calculateScores_players Examples.G3 [Score.new Examples.A])
    as (_ & Helem & Hnodup).
  split.
  - apply Helem. right. apply (bool_decide_unpack _). vm_compute. reflexivity.
  - apply Hnodup. apply (bool_decide_unpack _). vm_compute. reflexivity.
Defined.

(** ** What a season records for each player *)

Lemma array_set_length (i : nat) (v : Z) (a : array) :
  length (array_set i v a) = (length a `max` S i)%nat.
Proof.
  unfold array_set. destruct (decide _).
  - rewrite length_insert. lia.
  - rewrite !length_app, length_replicate. simpl. lia.
Qed.

Lemma lookup_snoc_bind {A B} (l : list A) (x : A) (h : A → option B) (i : nat) :
  (l ++ [x]) !! i ≫= h
  = if decide (i = length l) then h x else l !! i ≫= h.
Proof.
  destruct (decide (i = length l)) as [->|Hne].
  - by rewrite lookup_app_r, Nat.sub_diag.
  - destruct (decide (i < length l)%nat).
    + by rewrite lookup_app_l.
    + rewrite !lookup_ge_None_2; [done|lia|].
      rewrite length_app. simpl. lia.
Qed.

Lemma present_lookup {B} (a : array) (l : list B) (h : B → option Z) :
  (length a ≤ length l)%nat →
  (∀ i, array_get a i = l !! i ≫= h) →
  present a = omap h l.
Proof.
  revert a. induction l as [|b l IH]; intros a Hlen Hget.
  - destruct a; [done|simpl in Hlen; lia].
  - destruct a as [|x a].
    + specialize (IH [] ltac:(simpl; lia) (λ i, Hget (S i))).
      specialize (Hget 0%nat). simpl in *. unfold array_get in Hget.
      simpl in Hget. by rewrite <- Hget.
    + specialize (IH a ltac:(simpl in Hlen; lia) (λ i, Hget (S i))).
      specialize (Hget 0%nat). unfold array_get in Hget. simpl in Hget.
      unfold present in *. cbn [omap list_omap]. rewrite <- Hget.
      destruct x; cbn [mbind option_bind]; by rewrite <- IH.
Qed.

Lemma game_total_is_Some (q : Player.t) (g : Game.t) :
  is_Some (game_total q g) ↔ q ∈ Game.results g.
Proof.
  unfold game_total. rewrite <- (last_place_elem_of q 0).
  destruct (last_place q 0 (Game.results g)); simpl.
  - split; intros _; by eexists.
  - split; by intros [? ?].
Qed.

Lemma Examples_season3_built : Season_built Examples.season3.
Proof. repeat apply built_addGame. apply built_new. Qed.

Lemma Season_built_record (s : Season.t) (q : Player.t) :
  Season_built s →
  let score := default (Score.new q) (Score.find q (Season.scores s)) in
  (∀ i, array_get (Score.scores score) i = Season.games s !! i ≫= game_total q)
  ∧ (∀ i, array_get (Score.bonusPoints score) i
          = Season.games s !! i ≫= game_bonus q)
  ∧ (length (Score.scores score) ≤ length (Season.games s))%nat
  ∧ (length (Score.bonusPoints score) ≤ length (Season.games s))%nat
  ∧ Score.wins score
    = Z.of_nat (length (filter (λ g, Game.getWinner g = Some q) (Season.games s)))
  ∧ (is_Some (Score.find q (Season.scores s))
     ↔ Exists (λ g, q ∈ Game.results g) (Season.games s)).
Proof.
  induction 1 as [name|s d r k sortScores Hbuilt IH].
  - simpl. split_and!; try done. split; [by intros [? ?]|by intros ?%Exists_nil].
  - destruct IH as (Htot & Hbon & Hlt & Hlb & Hwins & Hsome).
    set (G := Season.linked s (Game.new d r k)).
    cbv zeta. rewrite addGame_games, addGame_find by (by apply Season_built_NoDup).
    fold G. rewrite find_calculateScores.
    assert (Game.index G = Some (length (Season.games s))) as Hidx by done.
    destruct (last_place q 0 (Game.results G)) as [j|] eqn:Hlast.
    + assert (q ∈ Game.results G) as Hq
        by (apply (last_place_elem_of q 0); by eexists).
      simpl default. unfold scored. rewrite Hidx. simpl.
      split_and!.
      * intros i. rewrite lookup_snoc_bind.
        destruct (decide _) as [->|Hne].
        -- rewrite array_get_set_eq. unfold game_total. by rewrite Hlast.
        -- by rewrite array_get_set_ne, Htot.
      * intros i. rewrite lookup_snoc_bind.
        destruct (decide _) as [->|Hne].
        -- rewrite array_get_set_eq. unfold game_bonus. by rewrite decide_True.
        -- by rewrite array_get_set_ne, Hbon.
      * rewrite array_set_length, length_app. simpl. lia.
      * rewrite array_set_length, length_app. simpl. lia.
      * rewrite filter_app, length_app, Hwins, filter_cons, filter_nil.
        destruct (decide _); simpl; lia.
      * split; [|by eauto]. intros _. apply Exists_app. right. by left.
    + assert (q ∉ Game.results G) as Hq.
      { intros [j Hj]%(last_place_elem_of q 0). congruence. }
      split_and!.
      * intros i. rewrite lookup_snoc_bind, Htot.
        destruct (decide _) as [->|Hne]; [|done].
        rewrite lookup_ge_None_2 by done. unfold game_total. by rewrite Hlast.
      * intros i. rewrite lookup_snoc_bind, Hbon.
        destruct (decide _) as [->|Hne]; [|done].
        rewrite lookup_ge_None_2 by done. unfold game_bonus.
        by rewrite decide_False.
      * rewrite length_app. simpl. lia.
      * rewrite length_app. simpl. lia.
      * rewrite filter_app, length_app, Hwins, filter_cons, filter_nil.
        rewrite decide_False; [simpl; lia|].
        intros Hwin. apply Hq. by apply (list_elem_of_lookup_2 _ 0%nat).
      * rewrite Hsome, Exists_app, Exists_cons, Exists_nil. tauto.
Qed.

Lemma omap_game_total_length (q : Player.t) (games : list Game.t) :
  length (omap (game_total q) games)
  = length (filter (λ g, q ∈ Game.results g) games).
Proof.
  induction games as [|g games IH]; [done|].
  rewrite filter_cons. cbn [omap list_omap].
  pose proof (game_total_is_Some q g) as Hsome.
  destruct (game_total q g) as [v|].
  - rewrite decide_True by (apply Hsome; by eexists). simpl. by rewrite IH.
  - rewrite decide_False; [done|]. intros Hq. by apply Hsome in Hq as [? ?].
Qed.

Lemma omap_game_bonus (q : Player.t) (games : list Game.t) :
  omap (game_bonus q) games
  = (λ g, Game.calculateFishChipBonus g q + Game.calculateBountyBonus g q)
      <$> filter (λ g, q ∈ Game.results g) games.
Proof.
  induction games as [|g games IH]; [done|].
  rewrite filter_cons. cbn [omap list_omap]. unfold game_bonus at 1.
  destruct (decide _); simpl; by rewrite IH.
Qed.

Lemma game_total_positive (q : Player.t) (g : Game.t) (v : Z) :
  game_total q g = Some v → 1 ≤ v.
Proof.
  unfold game_total.
  destruct (last_place q 0 (Game.results g)) as [j|] eqn:Hlast; [|done].
  intros [= <-]. apply last_place_lookup in Hlast as [_ Hj].
  apply lookup_lt_Some in Hj.
  pose proof (placementPoints_length (length (Game.results g))) as Hlen.
  pose proof (placementPoints_positive (length (Game.results g))) as Hpos.
  assert (1 ≤ Game.placementPoints (length (Game.results g)) !!! j) as Hj1.
  { eapply (proj1 (Forall_lookup _ _) Hpos j).
    apply list_lookup_lookup_total_lt. lia. }
  pose proof (calculateFishChipBonus_nonneg g q).
  pose proof (calculateBountyBonus_nonneg g q). lia.
Qed.

Lemma Season_built_present (s : Season.t) (q : Player.t) (score : Score.t) :
  Season_built s → Score.find q (Season.scores s) = Some score →
  Score.getGameScores score = omap (game_total q) (Season.games s)
  ∧ present (Score.bonusPoints score) = omap (game_bonus q) (Season.games s).
Proof.
  intros Hbuilt Hfind.
  destruct (Season_built_record s q Hbuilt) as (Htot & Hbon & Hlt & Hlb & _).
  rewrite Hfind in *. simpl in *.
  split; by apply present_lookup.
Qed.

(** X13.  In a season built by addGame, every game carries the index of
    its position in the season, and game numbers count from 1: the game
    at position i has index i and number i + 1. *)
Theorem season_games_indexed (s : Season.t) :
  Season_built s →
  Game.index <$> Season.games s
  = (λ i, Some i) <$> seq 0 (length (Season.games s))
  ∧ Game_getGameNumber <$> Season.games s
    = (λ i, Z.of_nat i + 1) <$> seq 0 (length (Season.games s)).
Proof.
  induction 1 as [name|s d r k sortScores _ [IHi IHn]]; [done|].
  rewrite addGame_games, !fmap_app, length_app, IHi, IHn. simpl length.
  by rewrite Nat.add_1_r, seq_S, !fmap_app.
Qed.

Lemma season_games_indexed_witness :
  Game_getGameNumber <$> Season.games Examples.season3 = [1; 2; 3].
Proof.
  rewrite (proj2 (season_games_indexed Examples.season3 Examples_season3_built)).
  reflexivity.
Defined.

(** X14.  In a season built by addGame, what a player's Score holds at
    the index of a game is decided by that game alone: nothing, in totals
    and in bonus points, when the player did not finish in it; otherwise
    (results without repetition, player at position j) the placement
    points of position j plus the game's fish-chip and bounty bonuses for
    the player, and those bonuses as bonus points. *)
Theorem season_records_games (s : Season.t) (q : Player.t) (i : nat)
    (g : Game.t) :
  Season_built s → Season.games s !! i = Some g →
  (q ∉ Game.results g →
     ∀ score, Score.find q (Season.scores s) = Some score →
       array_get (Score.scores score) i = None
       ∧ array_get (Score.bonusPoints score) i = None)
  ∧ (∀ j, NoDup (Game.results g) → Game.results g !! j = Some q →
       let bonus :=
         Game.calculateFishChipBonus g q + Game.calculateBountyBonus g q in
       ∃ score, Score.find q (Season.scores s) = Some score
         ∧ array_get (Score.scores score) i
           = Some (Game.placementPoints (length (Game.results g)) !!! j + bonus)
         ∧ array_get (Score.bonusPoints score) i = Some bonus).
Proof.
  intros Hbuilt Hg.
  destruct (Season_built_record s q Hbuilt) as (Htot & Hbon & _ & _ & _ & Hsome).
  specialize (Htot i). specialize (Hbon i). rewrite Hg in Htot, Hbon.
  simpl in Htot, Hbon. split.
  - intros Hq score Hscore. rewrite Hscore in *. simpl in *.
    rewrite Htot, Hbon. unfold game_total, game_bonus.
    rewrite decide_False by done.
    destruct (last_place q 0 (Game.results g)) as [j|] eqn:Hlast; [|done].
    exfalso. apply Hq, (last_place_elem_of q 0). by eexists.
  - intros j Hnodup Hj bonus.
    assert (q ∈ Game.results g) as Hq by (by eapply list_elem_of_lookup_2).
    destruct (proj2 Hsome) as [score Hscore].
    { apply Exists_exists. exists g. split; [|done].
      by eapply list_elem_of_lookup_2. }
    exists score. rewrite Hscore in *. simpl in *. split; [done|].
    rewrite Htot, Hbon. unfold game_total, game_bonus.
    by rewrite (last_place_NoDup q 0 j), decide_True.
Qed.

Lemma season_records_games_witness :
  ∃ score, Score.find Examples.C (Season.scores Examples.season3) = Some score
    ∧ array_get (Score.scores score) 1 = Some 17
    ∧ array_get (Score.scores score) 2 = None.
Proof.
  destruct (season_records_games Examples.season3 Examples.C 1
              (Season.linked Examples.season1 Examples.G2)
              Examples_season3_built eq_refl) as [_ Hplayed].
  destruct (Hplayed 0%nat) as (score & Hscore & Htotal & _).
  { apply (bool_decide_unpack _). vm_compute. reflexivity. }
  { reflexivity. }
  exists score. split; [exact Hscore|]. split; [exact Htotal|].
  destruct (season_records_games Examples.season3 Examples.C 2
              (Season.linked Examples.season2 Examples.G3)
              Examples_season3_built eq_refl) as [Hmissed _].
  apply (Hmissed ltac:(apply (bool_decide_unpack _); vm_compute; reflexivity)
           score Hscore).
Defined.

Lemma filter_length_le {A} (P Q : A → Prop) `{∀ x, Decision (P x)}
    `{∀ x, Decision (Q x)} (l : list A) :
  (∀ x, P x → Q x) → (length (filter P l) ≤ length (filter Q l))%nat.
Proof.
  intros HPQ. induction l as [|x l IH]; [done|]. rewrite !filter_cons.
  destruct (decide (P x)) as [HP|HP].
  - rewrite decide_True by auto. simpl. lia.
  - destruct (decide (Q x)); simpl; lia.
Qed.

(** X15.  In a season built by addGame, the players who have a Score are
    exactly those who finished in at least one game, and the games played
    by a player are the games of the season in which the player finished:
    at least one, and no more than the season has games. *)
Theorem season_games_played (s : Season.t) (q : Player.t) :
  Season_built s →
  (is_Some (Score.find q (Season.scores s))
   ↔ Exists (λ g, q ∈ Game.results g) (Season.games s))
  ∧ ∀ score, Score.find q (Season.scores s) = Some score →
      Score.getGamesPlayed score
      = length (filter (λ g, q ∈ Game.results g) (Season.games s))
      ∧ (1 ≤ Score.getGamesPlayed score ≤ length (Season.games s))%nat.
Proof.
  intros Hbuilt.
  destruct (Season_built_record s q Hbuilt) as (_ & _ & _ & _ & _ & Hsome).
  split; [done|]. intros score Hscore.
  destruct (Season_built_present s q score Hbuilt Hscore) as [Hpresent _].
  assert (Score.getGamesPlayed score
          = length (filter (λ g, q ∈ Game.results g) (Season.games s))) as Hplayed.
  { unfold Score.getGamesPlayed. by rewrite Hpresent, omap_game_total_length. }
  split; [done|]. rewrite Hplayed. split; [|apply length_filter].
  assert (Exists (λ g, q ∈ Game.results g) (Season.games s)) as Hex
    by (apply Hsome; by eexists).
  apply Exists_exists in Hex as (g & Hg & Hq).
  assert (g ∈ filter (λ g, q ∈ Game.results g) (Season.games s)) as Hin
    by (by apply list_elem_of_filter).
  destruct (filter _ _); [by apply elem_of_nil in Hin|simpl; lia].
Qed.

Lemma season_games_played_witness :
  ∃ score, Score.find Examples.A (Season.scores Examples.season3) = Some score
    ∧ Score.getGamesPlayed score = 2%nat.
Proof.
  destruct (season_games_played Examples.season3 Examples.A
              Examples_season3_built) as [Hsome Hplayed].
  destruct (proj2 Hsome) as [score Hscore].
  { apply (bool_decide_unpack _). vm_compute. reflexivity. }
  exists score. split; [exact Hscore|].
  rewrite (proj1 (Hplayed score Hscore)). reflexivity.
Defined.

(** X16.  In a season built by addGame, the win counter of a player is
    the number of games of the season whose first-place finisher is that
    player; it is never more than the number of games the player
    played. *)
Theorem season_wins (s : Season.t) (q : Player.t) (score : Score.t) :
  Season_built s → Score.find q (Season.scores s) = Some score →
  Score.wins score
  = Z.of_nat (length (filter (λ g, Game.getWinner g = Some q) (Season.games s)))
  ∧ 0 ≤ Score.wins score ≤ Z.of_nat (Score.getGamesPlayed score).
Proof.
  intros Hbuilt Hscore.
  destruct (Season_built_record s q Hbuilt) as (_ & _ & _ & _ & Hwins & _).
  destruct (Season_built_present s q score Hbuilt Hscore) as [Hpresent _].
  rewrite Hscore in Hwins. simpl in Hwins. split; [done|].
  unfold Score.getGamesPlayed. rewrite Hwins, Hpresent, omap_game_total_length.
  split; [lia|]. apply inj_le, filter_length_le.
  intros g Hwin. by apply (list_elem_of_lookup_2 _ 0%nat).
Qed.

Lemma season_wins_witness :
  ∃ score, Score.find Examples.F (Season.scores Examples.season3) = Some score
    ∧ Score.wins score = 1.
Proof.
  destruct (Score.find Examples.F (Season.scores Examples.season3))
    as [score|] eqn:Hscore; [|vm_compute in Hscore; discriminate].
  exists score. split; [reflexivity|].
  rewrite (proj1 (season_wins Examples.season3 Examples.F score
                    Examples_season3_built Hscore)).
  reflexivity.
Defined.

Lemma sum_nonneg (l : list Z) : Forall (λ x, 0 ≤ x) l → 0 ≤ sum l.
Proof.
  induction 1 as [|x l Hx _ IH]; [done|]. rewrite sum_cons. lia.
Qed.

(** X17.  In a season built by addGame, the bonus points of a player are
    the fish-chip and bounty bonuses of the games in which the player
    finished, added up; they are never negative. *)
Theorem season_bonus_points (s : Season.t) (q : Player.t) (score : Score.t) :
  Season_built s → Score.find q (Season.scores s) = Some score →
  Score.getBonusPoints score
  = sum ((λ g, Game.calculateFishChipBonus g q + Game.calculateBountyBonus g q)
           <$> filter (λ g, q ∈ Game.results g) (Season.games s))
  ∧ 0 ≤ Score.getBonusPoints score.
Proof.
  intros Hbuilt Hscore.
  destruct (Season_built_present s q score Hbuilt Hscore) as [_ Hpresent].
  unfold Score.getBonusPoints. rewrite Hpresent, omap_game_bonus.
  split; [done|]. apply sum_nonneg, Forall_fmap, Forall_forall.
  intros g _. simpl.
  pose proof (calculateFishChipBonus_nonneg g q).
  pose proof (calculateBountyBonus_nonneg g q). lia.
Qed.

Lemma season_bonus_points_witness :
  ∃ score, Score.find Examples.C (Season.scores Examples.season3) = Some score
    ∧ Score.getBonusPoints score = 2.
Proof.
  destruct (Score.find Examples.C (Season.scores Examples.season3))
    as [score|] eqn:Hscore; [|vm_compute in Hscore; discriminate].
  exists score. split; [reflexivity|].
  rewrite (proj1 (season_bonus_points Examples.season3 Examples.C score
                    Examples_season3_built Hscore)).
  vm_compute. reflexivity.
Defined.

Lemma sum_ge_length (l : list Z) :
  Forall (λ x, 1 ≤ x) l → Z.of_nat (length l) ≤ sum l.
Proof.
  induction 1 as [|x l Hx _ IH]; [done|]. rewrite sum_cons. simpl length. lia.
Qed.

Lemma Season_built_listed (s : Season.t) (q : Player.t) :
  Season_built s →
  is_Some (Score.find q (Season.scores s))
  ↔ Exists (λ g, q ∈ Game.results g) (Season.games s).
Proof. intros Hbuilt. apply (Season_built_record s q Hbuilt). Qed.

Lemma Season_built_totals_positive (s : Season.t) (q : Player.t)
    (score : Score.t) :
  Season_built s → Score.find q (Season.scores s) = Some score →
  Forall (λ x, 1 ≤ x) (Score.getGameScores score).
Proof.
  intros Hbuilt Hscore.
  destruct (Season_built_present s q score Hbuilt Hscore) as [-> _].
  apply Forall_forall. intros v (g & _ & Hv)%list_elem_of_omap.
  by eapply game_total_positive.
Qed.

(** X18.  In a season built by addGame, every recorded game total of a
    player is at least 1, so the lowest weekly score is at least 1; the
    overall score is at least the number of games that count (9, or the
    games played when fewer) and at most the sum of all recorded
    totals. *)
Theorem season_totals_positive (s : Season.t) (q : Player.t) (score : Score.t) :
  Season_built s → Score.find q (Season.scores s) = Some score →
  Forall (λ x, 1 ≤ x) (Score.getGameScores score)
  ∧ 1 ≤ Score.getLowestWeeklyPoints score
  ∧ Z.of_nat (9 `min` Score.getGamesPlayed score) ≤ Score.getOverallScore score
  ∧ Score.getOverallScore score ≤ sum (Score.getGameScores score).
Proof.
  intros Hbuilt Hscore.
  pose proof (Season_built_totals_positive s q score Hbuilt Hscore) as Hpos.
  destruct (Season_built_present s q score Hbuilt Hscore) as [Hpresent _].
  assert (Score.getGameScores score ≠ []) as Hne.
  { pose proof (Season_built_record s q Hbuilt) as (_ & _ & _ & _ & _ & Hsome).
    assert (Exists (λ g, q ∈ Game.results g) (Season.games s)) as Hex
      by (apply Hsome; by eexists).
    apply Exists_exists in Hex as (g & Hg & Hq).
    apply game_total_is_Some in Hq as [v Hv].
    intros Hnil. assert (v ∈ Score.getGameScores score) as Hin.
    { rewrite Hpresent. apply list_elem_of_omap. by exists g. }
    rewrite Hnil in Hin. by apply elem_of_nil in Hin. }
  set (sorted := Array_sort (λ a b : Z, b - a) (Score.getGameScores score)).
  assert (sorted ≡ₚ Score.getGameScores score) as Hperm
    by apply Array_sort_Permutation.
  assert (Forall (λ x, 1 ≤ x) sorted) as Hsorted by (by rewrite Hperm).
  split; [done|]. split; [|split].
  - pose proof (foldl_min_spec) as Hmin. unfold Score.getLowestWeeklyPoints.
    destruct (Score.getGameScores score) as [|x rest]; [done|].
    destruct (Hmin x rest) as [Hin _].
    by apply (proj1 (Forall_forall _ _) Hpos) in Hin.
  - unfold Score.getOverallScore, Score.getGamesPlayed. fold sorted.
    rewrite <- (Permutation_length Hperm), <- length_take.
    apply sum_ge_length. by apply Forall_take.
  - unfold Score.getOverallScore. fold sorted.
    rewrite <- (sum_Permutation _ _ Hperm).
    assert (sum sorted = sum (take 9 sorted) + sum (drop 9 sorted)) as ->
      by (by rewrite <- sum_app, take_drop).
    assert (0 ≤ sum (drop 9 sorted)); [|lia].
    apply sum_nonneg. eapply Forall_impl; [by apply Forall_drop|].
    intros x Hx. simpl in Hx. lia.
Qed.

Lemma season_totals_positive_witness :
  ∃ score, Score.find Examples.B (Season.scores Examples.season3) = Some score
    ∧ 1 ≤ Score.getLowestWeeklyPoints score.
Proof.
  destruct (Score.find Examples.B (Season.scores Examples.season3))
    as [score|] eqn:Hscore; [|vm_compute in Hscore; discriminate].
  exists score. split; [reflexivity|].
  apply (season_totals_positive Examples.season3 Examples.B score
           Examples_season3_built Hscore).
Defined.

Section top_of_sorted.
(** Sums of the first [n] numbers of a list in descending order. *)
Let desc : relation Z := λ a b, b ≤ a.
Let cmp : Z → Z → Z := λ a b, b - a.

Lemma take_sum_cons (n : nat) (y : Z) (l : list Z) :
  StronglySorted desc (y :: l) → Forall (λ x, 0 ≤ x) (y :: l) →
  sum (take n l) ≤ sum (take n (y :: l)).
Proof.
  revert n y. induction l as [|z l IH]; intros n y Hsorted Hpos.
  - rewrite take_nil. apply sum_nonneg. by apply Forall_take.
  - destruct n as [|n]; [done|]. cbn [take]. rewrite !sum_cons.
    apply StronglySorted_cons in Hsorted as [Hy Hsorted].
    apply Forall_cons in Hy as [Hzy _].
    apply Forall_cons in Hpos as [_ Hpos].
    specialize (IH n z Hsorted Hpos). cbn [take] in IH. unfold desc in Hzy.
    destruct n; cbn [take] in *; rewrite ?sum_cons in *; lia.
Qed.

Lemma take_sum_insert (n : nat) (x : Z) (l : list Z) :
  StronglySorted desc l → Forall (λ x, 0 ≤ x) l → 0 ≤ x →
  sum (take n l) ≤ sum (take n (sort_insert cmp x l)).
Proof.
  intros Hsorted Hpos Hx. revert n.
  induction l as [|y l IH]; intros n.
  - rewrite take_nil. apply sum_nonneg. apply Forall_take.
    simpl. by repeat constructor.
  - simpl. destruct (decide (cmp x y ≤ 0)) as [Hxy|Hxy].
    + destruct n as [|n]; [done|]. cbn [take]. rewrite !sum_cons.
      pose proof (take_sum_cons n y l Hsorted Hpos). unfold cmp in Hxy. lia.
    + destruct n as [|n]; [done|]. cbn [take]. rewrite !sum_cons.
      apply StronglySorted_cons in Hsorted as [_ Hsorted].
      apply Forall_cons in Hpos as [_ Hpos].
      specialize (IH Hsorted Hpos n). lia.
Qed.
End top_of_sorted.

Lemma overall_after_record (l : list Z) (v : Z) :
  Forall (λ x, 0 ≤ x) l → 0 ≤ v →
  sum (take 9 (Array_sort (λ a b, b - a) l))
  ≤ sum (take 9 (Array_sort (λ a b, b - a) (l ++ [v]))).
Proof.
  intros Hpos Hv.
  rewrite (Array_sort_numbers_Permutation (l ++ [v]) (v :: l))
    by (by rewrite Permutation_app_comm).
  simpl. apply take_sum_insert; [|by rewrite Array_sort_Permutation|done].
  apply (Array_sort_sorted (λ z : Z, z)).
Qed.

(** X19.  Adding a game to a season built by addGame never takes
    anything away from a player who already has a Score: the player still
    has one, and its overall score, games played, wins and bonus points
    are at least what they were. *)
Theorem addGame_never_lowers (s : Season.t) (d : Date) (r : list Player.t)
    (k : option (list Game.knockout)) (sortScores : bool) (q : Player.t)
    (before : Score.t) :
  Season_built s → Score.find q (Season.scores s) = Some before →
  ∃ after,
    Score.find q (Season.scores (Season.addGame s (Game.new d r k) sortScores))
    = Some after
    ∧ Score.getOverallScore before ≤ Score.getOverallScore after
    ∧ (Score.getGamesPlayed before ≤ Score.getGamesPlayed after)%nat
    ∧ Score.wins before ≤ Score.wins after
    ∧ Score.getBonusPoints before ≤ Score.getBonusPoints after.
Proof.
  intros Hbuilt Hbefore.
  set (s' := Season.addGame s (Game.new d r k) sortScores).
  assert (Season_built s') as Hbuilt' by (by constructor).
  assert (is_Some (Score.find q (Season.scores s'))) as [after Hafter].
  { apply (Season_built_listed s' q Hbuilt').
    assert (Exists (λ g, q ∈ Game.results g) (Season.games s)) as Hex
      by (apply (Season_built_listed s q Hbuilt); by eexists).
    unfold s'. rewrite addGame_games. apply Exists_app. by left. }
  exists after. split; [done|].
  destruct (Season_built_present s q before Hbuilt Hbefore) as [Ht Hb].
  destruct (Season_built_present s' q after Hbuilt' Hafter) as [Ht' Hb'].
  pose proof (Season_built_record s q Hbuilt) as (_ & _ & _ & _ & Hw & _).
  pose proof (Season_built_record s' q Hbuilt') as (_ & _ & _ & _ & Hw' & _).
  rewrite Hbefore in Hw. rewrite Hafter in Hw'.
  unfold s' in Ht', Hb', Hw'. rewrite addGame_games in Ht', Hb', Hw'.
  rewrite omap_app in Ht', Hb'. rewrite filter_app, length_app in Hw'.
  cbn [default from_option id] in Hw, Hw'.
  rewrite <- Ht in Ht'. rewrite <- Hb in Hb'.
  pose proof (Season_built_totals_positive s q before Hbuilt Hbefore) as Hpos.
  set (G := Season.linked s (Game.new d r k)) in *.
  split_and!.
  - unfold Score.getOverallScore. rewrite Ht'. cbn [omap list_omap].
    destruct (game_total q G) as [v|] eqn:Hv.
    + apply overall_after_record.
      * eapply Forall_impl; [exact Hpos|]. intros x Hx. simpl in Hx. lia.
      * apply game_total_positive in Hv. lia.
    + by rewrite app_nil_r.
  - unfold Score.getGamesPlayed. rewrite Ht', length_app. lia.
  - lia.
  - unfold Score.getBonusPoints. rewrite Hb', sum_app.
    assert (0 ≤ sum (omap (game_bonus q) [G])); [|lia].
    rewrite omap_game_bonus. apply sum_nonneg, Forall_fmap, Forall_forall.
    intros g _. simpl.
    pose proof (calculateFishChipBonus_nonneg g q).
    pose proof (calculateBountyBonus_nonneg g q). lia.
Qed.

Lemma addGame_never_lowers_witness :
  ∃ after,
    Score.find Examples.D (Season.scores Examples.season3) = Some after
    ∧ 18 ≤ Score.getOverallScore after.
Proof.
  destruct (addGame_never_lowers Examples.season2 (mkDate 2012 2 21)
              [Examples.F; Examples.E; Examples.D]
              (Some [(Examples.F, Examples.C)]) false Examples.D
              (Score.mk Examples.D [Some 9; Some 9] [Some 0; Some 0] 0))
    as (after & Hafter & Hoverall & _).
  { repeat apply built_addGame. apply built_new. }
  { vm_compute. reflexivity. }
  exists after. split; [exact Hafter|]. exact Hoverall.
Defined.

(** ** Sorting the Scores, and reading a season back *)

Lemma Array_sort_sorted_id {A} (key : A → Z) (l : list A) :
  StronglySorted (λ a b, key b ≤ key a) l →
  Array_sort (λ a b, key b - key a) l = l.
Proof.
  induction 1 as [|x l _ IH Hx]; [done|]. simpl. rewrite IH.
  destruct Hx as [|y l Hy _]; [done|]. simpl.
  rewrite decide_True; [done|lia].
Qed.

Lemma addGame_sorted (s : Season.t) (g : Game.t) :
  StronglySorted (λ a b, Score.getOverallScore b ≤ Score.getOverallScore a)
    (Season.scores (Season.addGame s g false)).
Proof. apply (Array_sort_sorted Score.getOverallScore). Qed.

(** X20.  sortScores only reorders the collection, and sorting a second
    time changes nothing: in particular a collection already in
    descending order of overall score is left as it is. *)
Theorem sortScores_idempotent (scores : list Score.t) :
  Season.sortScores scores ≡ₚ scores
  ∧ Season.sortScores (Season.sortScores scores) = Season.sortScores scores
  ∧ (StronglySorted
       (λ a b, Score.getOverallScore b ≤ Score.getOverallScore a) scores →
     Season.sortScores scores = scores).
Proof.
  split; [apply Array_sort_Permutation|]. split.
  - apply (Array_sort_sorted_id Score.getOverallScore).
    apply (Array_sort_sorted Score.getOverallScore).
  - apply (Array_sort_sorted_id Score.getOverallScore).
Qed.

Lemma sortScores_idempotent_witness :
  Season.sortScores (Season.scores Examples.season3)
  = Season.scores Examples.season3.
Proof.
  apply (proj2 (proj2 (sortScores_idempotent _))).
  apply (addGame_sorted Examples.season2 Examples.G3).
Defined.

Lemma Game_fromObject_new (players : list Player.t) (obj : GameObj) (g : Game.t) :
  Game_fromObject players obj = Some g →
  ∃ d r kos,
    g = Game.new d r (Some kos)
    ∧ mapM (λ id, players !! id) (obj_results obj) = Some r
    ∧ mapM (λ ko : nat * nat,
              perp ← players !! ko.1;
              victim ← players !! ko.2;
              Some (perp, victim)) (obj_knockouts obj) = Some kos.
Proof.
  unfold Game_fromObject. destruct (obj_date obj) as [[y m] d].
  destruct (mapM _ (obj_results obj)) as [r|]; [|done]. simpl.
  destruct (mapM _ (obj_knockouts obj)) as [kos|]; [|done]. simpl.
  intros [= <-]. by eexists _, _, _.
Qed.

Lemma Season_fromObject_snoc (players : list Player.t) (name : string)
    (objs : list GameObj) (obj : GameObj) (s : Season.t) :
  Season_fromObject players (mkSeasonObj name (objs ++ [obj])) = Some s →
  ∃ s0 g,
    Season_fromObject players (mkSeasonObj name objs) = Some s0
    ∧ Game_fromObject players obj = Some g
    ∧ s = Season.addGame s0 g false.
Proof.
  unfold Season_fromObject. simpl. rewrite foldl_app. simpl.
  destruct (foldl _ _ objs) as [s0|]; [|done]. simpl.
  destruct (Game_fromObject players obj) as [g|]; [|done]. simpl.
  intros [= <-]. by eexists _, _.
Qed.

(** X21.  Whenever Season.fromObject gives a season, that season is one
    built by addGame from constructor-made games; it has the stored name
    and as many games as were stored; and its Score collection is in
    descending order of overall score, because every stored game is added
    with a falsy second argument, which makes addGame sort. *)
Theorem Season_fromObject_sorted (players : list Player.t) (obj : SeasonObj)
    (s : Season.t) :
  Season_fromObject players obj = Some s →
  Season_built s
  ∧ Season.name s = obj_name obj
  ∧ length (Season.games s) = length (obj_games obj)
  ∧ StronglySorted
      (λ a b, Score.getOverallScore b ≤ Score.getOverallScore a)
      (Season.scores s).
Proof.
  destruct obj as [name objs]. simpl. revert s.
  induction objs as [|o objs IH] using rev_ind; intros s.
  - intros [= <-]. split_and!; try done; constructor.
  - intros (s0 & g & Hs0 & Hg & ->)%Season_fromObject_snoc.
    destruct (IH s0 Hs0) as (Hbuilt & Hname & Hlen & _).
    apply Game_fromObject_new in Hg as (d & r & kos & -> & _).
    split_and!.
    + by constructor.
    + done.
    + rewrite addGame_games, !length_app, Hlen. done.
    + apply addGame_sorted.
Qed.

Lemma Season_fromObject_sorted_witness :
  ∃ s, Season_fromObject Examples.directory (Season_toObject Examples.season2)
       = Some s
    ∧ StronglySorted
        (λ a b, Score.getOverallScore b ≤ Score.getOverallScore a)
        (Season.scores s).
Proof.
  destruct (Season_fromObject Examples.directory
              (Season_toObject Examples.season2)) as [s|] eqn:Hs;
    [|vm_compute in Hs; discriminate].
  exists s. split; [reflexivity|].
  apply (Season_fromObject_sorted Examples.directory
           (Season_toObject Examples.season2) s Hs).
Defined.

Lemma Game_toObject_fromObject (players : list Player.t) (obj : GameObj)
    (g : Game.t) :
  Player.id <$> players = seq 0 (length players) →
  Game_fromObject players obj = Some g →
  obj_results (Game_toObject g) = obj_results obj
  ∧ obj_knockouts (Game_toObject g) = obj_knockouts obj.
Proof.
  intros Hids (d & r & kos & -> & Hr & Hkos)%Game_fromObject_new.
  assert (∀ id p, players !! id = Some p → Player.id p = id) as Hid.
  { intros id p Hp.
    assert ((Player.id <$> players) !! id = Some (Player.id p)) as Hlook
      by (by rewrite list_lookup_fmap, Hp).
    rewrite Hids in Hlook. by apply lookup_seq in Hlook as [-> _]. }
  simpl. split.
  - eapply mapM_fmap_Some_inv; [exact Hr|]. apply Hid.
  - eapply mapM_fmap_Some_inv; [exact Hkos|].
    intros [i1 i2] [p1 p2]. simpl.
    destruct (players !! i1) as [q1|] eqn:H1; [|done]. simpl.
    destruct (players !! i2) as [q2|] eqn:H2; [|done]. simpl.
    intros [= -> ->]. by rewrite (Hid _ _ H1), (Hid _ _ H2).
Qed.

(** X22.  With a directory in which every player is stored at its id,
    reading a stored season and storing it again gives back the stored
    name and, game by game, the stored lists of finisher ids and of
    knockout id pairs. *)
Theorem Season_toObject_fromObject (players : list Player.t) (obj : SeasonObj)
    (s : Season.t) :
  Player.id <$> players = seq 0 (length players) →
  Season_fromObject players obj = Some s →
  obj_name (Season_toObject s) = obj_name obj
  ∧ obj_results <$> obj_games (Season_toObject s)
    = obj_results <$> obj_games obj
  ∧ obj_knockouts <$> obj_games (Season_toObject s)
    = obj_knockouts <$> obj_games obj.
Proof.
  intros Hids. destruct obj as [name objs]. simpl. revert s.
  induction objs as [|o objs IH] using rev_ind; intros s.
  - by intros [= <-].
  - intros (s0 & g & Hs0 & Hg & ->)%Season_fromObject_snoc.
    destruct (IH s0 Hs0) as (Hname & Hres & Hkos).
    destruct (Game_toObject_fromObject players o g Hids Hg) as [Hr Hk].
    rewrite addGame_games, !fmap_app, Hres, Hkos.
    assert (obj_results (Game_toObject (Season.linked s0 g)) = obj_results o
            ∧ obj_knockouts (Game_toObject (Season.linked s0 g))
              = obj_knockouts o) as [Hr' Hk'].
    { unfold Game_toObject in *. cbn [obj_results obj_knockouts] in *.
      by rewrite linked_results, linked_knockouts. }
    split; [done|]. cbn [fmap list_fmap]. by rewrite Hr', Hk'.
Qed.

Lemma Season_toObject_fromObject_witness :
  ∃ s, Season_fromObject Examples.directory (Season_toObject Examples.season3)
       = Some s
    ∧ obj_results <$> obj_games (Season_toObject s)
      = [[0; 1; 2; 3; 4; 5]; [2; 0; 1; 3; 4; 5]; [5; 4; 3]]%nat.
Proof.
  destruct (Season_fromObject Examples.directory
              (Season_toObject Examples.season3)) as [s|] eqn:Hs;
    [|vm_compute in Hs; discriminate].
  exists s. split; [reflexivity|].
  rewrite (proj1 (proj2 (Season_toObject_fromObject Examples.directory
                           (Season_toObject Examples.season3) s eq_refl Hs))).
  reflexivity.
Defined.

(** ** Seasons as a whole *)

(** X23.  A season built by addGame has one Score per player: no player
    appears twice in the Score collection, and looking a player up by the
    search of getOrCreate finds each Score of the collection. *)
Theorem season_one_score_per_player (s : Season.t) :
  Season_built s →
  NoDup (Score.player <$> Season.scores s)
  ∧ Forall (λ score,
              Score.find (Score.player score) (Season.scores s) = Some score)
      (Season.scores s).
Proof.
  intros Hnodup%Season_built_NoDup. split; [done|].
  apply Forall_forall. intros score Hscore. by apply find_elem_of_NoDup.
Qed.

Lemma season_one_score_per_player_witness :
  NoDup (Score.player <$> Season.scores Examples.season3).
Proof.
  apply (proj1 (season_one_score_per_player Examples.season3
                  Examples_season3_built)).
Defined.

(** X24.  The second argument of addGame decides only the order of the
    Score collection: with one Score per player, adding a game with or
    without the sort gives the same games, the same Scores up to order,
    and the same Score for every player. *)
Theorem addGame_sort_argument (s : Season.t) (g : Game.t) :
  NoDup (Score.player <$> Season.scores s) →
  Season.name (Season.addGame s g false) = Season.name (Season.addGame s g true)
  ∧ Season.games (Season.addGame s g false)
    = Season.games (Season.addGame s g true)
  ∧ Season.scores (Season.addGame s g false)
    ≡ₚ Season.scores (Season.addGame s g true)
  ∧ ∀ q, Score.find q (Season.scores (Season.addGame s g false))
         = Score.find q (Season.scores (Season.addGame s g true)).
Proof.
  intros Hnodup. split; [done|]. split; [done|]. split.
  - by rewrite !addGame_scores_Permutation.
  - intros q. by rewrite !addGame_find.
Qed.

Lemma addGame_sort_argument_witness :
  Score.find Examples.D
    (Season.scores (Season.addGame Examples.season2 Examples.G3 false))
  = Score.find Examples.D
      (Season.scores (Season.addGame Examples.season2 Examples.G3 true)).
Proof.
  apply (addGame_sort_argument Examples.season2 Examples.G3).
  apply (bool_decide_unpack _). vm_compute. reflexivity.
Defined.



